(** * Verification of translate-script.py (XML string-table translator)

    Shallow embedding of the Python script [src/translate-script.py]:
    Python [str] values are sequences of Unicode code points, modelled as
    [list N]; an [xml.etree.ElementTree.Element] is a [node]; an element
    reference inside a collected tuple is the path of child indices that
    leads from the root to that element (the parsed tree has no sharing, so
    the path identifies the object). *)

From Stdlib Require Import Ascii String List Bool Arith NArith ZArith Lia.
Import ListNotations.
Open Scope list_scope.
Set Warnings "-register-all,-abstract-large-number".

(** ** Python strings *)

Abbreviation pystr := (list N).

(** Literal conversion of an ASCII Rocq string into code points. *)
Fixpoint s2l (s : string) : pystr :=
  match s with
  | EmptyString => []
  | String c r => N.of_nat (nat_of_ascii c) :: s2l r
  end.

(** [str.isspace] for one code point (CPython's [Py_UNICODE_ISSPACE]). *)
Definition is_space (c : N) : bool :=
  ((9 <=? c) && (c <=? 13))%N || ((28 <=? c) && (c <=? 32))%N
  || (c =? 133)%N || (c =? 160)%N || (c =? 5760)%N
  || ((8192 <=? c) && (c <=? 8202))%N
  || (c =? 8232)%N || (c =? 8233)%N || (c =? 8239)%N || (c =? 8287)%N
  || (c =? 12288)%N.

Fixpoint lstrip (s : pystr) : pystr :=
  match s with
  | [] => []
  | c :: r => if is_space c then lstrip r else s
  end.

(** [str.strip()] with no argument. *)
Definition strip (s : pystr) : pystr := rev (lstrip (rev (lstrip s))).

(** [ch in s] for a single character. *)
Definition contains (ch : N) (s : pystr) : bool := existsb (N.eqb ch) s.

Definition PERCENT : N := 37%N.
Definition ELLIPSIS : N := 8230%N.   (* U+2026 '…' *)
Definition DOT : N := 46%N.

(** [s.replace('…', '...')] *)
Definition replace_ellipsis (s : pystr) : pystr :=
  flat_map (fun c => if (c =? ELLIPSIS)%N then [DOT; DOT; DOT] else [c]) s.

(** Python truthiness of a [str]. *)
Definition truthy (s : pystr) : bool :=
  match s with [] => false | _ => true end.

(** [clean_text] (lines 12-16). *)
Definition clean_text (text : pystr) : pystr :=
  if truthy text then replace_ellipsis text else text.

(** ** The XML tree *)

(** An element: tag, attribute dict (insertion ordered, unique keys),
    optional text, optional tail, children. *)
Inductive node : Type :=
  Node (tag : pystr) (attrib : list (pystr * pystr))
       (text tail : option pystr) (children : list node).

Definition tag_of (n : node) := let '(Node t _ _ _ _) := n in t.
Definition attrib_of (n : node) := let '(Node _ a _ _ _) := n in a.
Definition text_of (n : node) := let '(Node _ _ x _ _) := n in x.
Definition tail_of (n : node) := let '(Node _ _ _ x _) := n in x.
Definition children_of (n : node) := let '(Node _ _ _ _ c) := n in c.

(** A reference to an element: child indices from the root. *)
Definition path := list nat.

(** A collected tuple [(text_to_translate, element_reference, attribute_name)]. *)
Definition tunit : Type := (pystr * path * pystr)%type.

Definition TEXT := s2l "text".
Definition TAIL := s2l "tail".
Definition excluded_attrs : list pystr := [s2l "name"; s2l "id"; s2l "identifier"].

Definition list_eqb (a b : pystr) : bool :=
  if list_eq_dec N.eq_dec a b then true else false.

Definition not_in_excluded (k : pystr) : bool :=
  negb (existsb (list_eqb k) excluded_attrs).

(** [elem.text and elem.text.strip() and '%' not in elem.text] *)
Definition text_cond (x : option pystr) : bool :=
  match x with
  | None => false
  | Some s => truthy s && truthy (strip s) && negb (contains PERCENT s)
  end.

(** The attribute test of lines 45-47. *)
Definition attr_cond (k v : pystr) : bool :=
  truthy v && truthy (strip v) && not_in_excluded k && negb (contains PERCENT v).

Definition opt_units (x : option pystr) (p : path) (slot : pystr) : list tunit :=
  match x with
  | Some s => if text_cond x then [(clean_text (strip s), p, slot)] else []
  | None => []
  end.

Definition attr_units (a : list (pystr * pystr)) (p : path) : list tunit :=
  flat_map (fun '(k, v) => if attr_cond k v then [(clean_text (strip v), p, k)] else []) a.

(** [collect_from_element] (lines 26-56): text, tail, attributes, then the
    children in order. *)
Fixpoint collect_from_element (p : path) (e : node) : list tunit :=
  match e with
  | Node _ a x t cs =>
      opt_units x p TEXT ++ opt_units t p TAIL ++ attr_units a p ++
      (fix go (i : nat) (l : list node) : list tunit :=
         match l with
         | [] => []
         | c :: r => collect_from_element (p ++ [i]) c ++ go (S i) r
         end) 0 cs
  end.

(** [collect_translatable_text] (lines 18-59). *)
Definition collect_translatable_text (root : node) : list tunit :=
  collect_from_element [] root.

(** ** The Writer (lines 119-125) *)

(** Apply [f] to the element at [p] (positions past the end leave the
    list as it is; the writer only receives collected, valid paths). *)
Fixpoint map_nth {A} (i : nat) (f : A -> A) (l : list A) {struct l} : list A :=
  match l, i with
  | [], _ => []
  | x :: r, 0 => f x :: r
  | x :: r, S j => x :: map_nth j f r
  end.

Fixpoint update_at (f : node -> node) (p : path) (n : node) : node :=
  match p with
  | [] => f n
  | i :: q =>
      match n with
      | Node tg a x t cs => Node tg a x t (map_nth i (update_at f q) cs)
      end
  end.

Fixpoint get_at (p : path) (n : node) : option node :=
  match p with
  | [] => Some n
  | i :: q => match nth_error (children_of n) i with
              | Some c => get_at q c
              | None => None
              end
  end.

(** [element.attrib[k] = v] on a Python dict: overwrite in place, or append. *)
Fixpoint set_attr (k v : pystr) (a : list (pystr * pystr)) : list (pystr * pystr) :=
  match a with
  | [] => [(k, v)]
  | (k', v') :: r => if list_eqb k k' then (k, v) :: r else (k', v') :: set_attr k v r
  end.

(** The body of the loop: slot ['text'], slot ['tail'], else an attribute. *)
Definition set_slot (slot v : pystr) (n : node) : node :=
  match n with
  | Node tg a x t cs =>
      if list_eqb slot TEXT then Node tg a (Some v) t cs
      else if list_eqb slot TAIL then Node tg a x (Some v) cs
      else Node tg (set_attr slot v a) x t cs
  end.

(** [for (_, element, attr_name), translated_text in zip(...)]: [zip] is
    [combine], which stops at the shorter list. *)
Definition write_step (r : node) (uv : tunit * pystr) : node :=
  let '((_, p, slot), v) := uv in update_at (set_slot slot v) p r.

Definition write_translations (root : node) (units : list tunit) (trs : list pystr) : node :=
  fold_left write_step (combine units trs) root.

(** ** The translator adapter [batch_translate] (lines 61-81) *)

(** What [translator.translate(batch, dest='ur', src='en')] does: raise, return
    a list of results, or return a single result object. Only the [.text] of
    each result is used. *)
Inductive tr_result := TRaise | TList (texts : list pystr) | TSingle (text : pystr).

Inductive event :=
  | ETranslate (batch : list pystr)          (* the external call *)
  | EPrintOk (index total : nat)            (* "Translated batch i of n" *)
  | EPrintErr (index : nat)                 (* "Error translating batch i" *)
  | ESleep (seconds : nat).                 (* time.sleep *)

(** [range(0, stop, step)] for [step > 0]. *)
Fixpoint range_from (fuel start stop step : nat) : list nat :=
  match fuel with
  | 0 => []
  | S f => if start <? stop then start :: range_from f (start + step) stop step else []
  end.

Definition py_range (stop step : nat) : list nat := range_from stop 0 stop step.

(** [texts[i:i + batch_size]] *)
Definition slice (i j : nat) (l : list pystr) : list pystr := firstn (j - i) (skipn i l).

(** One iteration of the loop; the accumulator is [(translations, trace)]. *)
Definition batch_step (tr : list pystr -> tr_result) (texts : list pystr) (bs : nat)
    (acc : list pystr * list event) (i : nat) : list pystr * list event :=
  let '(translations, ev) := acc in
  let batch := slice i (i + bs) texts in
  let total := (length texts + bs - 1) / bs in
  match tr batch with
  | TRaise => (translations ++ batch, ev ++ [ETranslate batch; EPrintErr (i / bs + 1)])
  | TList rs => (translations ++ rs,
                 ev ++ [ETranslate batch; EPrintOk (i / bs + 1) total; ESleep 1])
  | TSingle r => (translations ++ [r],
                  ev ++ [ETranslate batch; EPrintOk (i / bs + 1) total; ESleep 1])
  end.

(** [range] raises [ValueError] for a zero step; the result is then [None]. *)
Definition batch_translate (tr : list pystr -> tr_result) (texts : list pystr) (bs : nat)
    : option (list pystr * list event) :=
  if bs =? 0 then None
  else Some (fold_left (batch_step tr texts bs) (py_range (length texts) bs) ([], [])).

Definition DEFAULT_BATCH_SIZE := 100.

(** ** Default output name (line 88) *)


(** [str.rfind(c)]: the last index of [c], or [-1]. *)
Fixpoint rfind_from (c : N) (l : pystr) (i best : Z) : Z :=
  match l with
  | [] => best
  | x :: r => rfind_from c r (i + 1)%Z (if (x =? c)%N then i else best)
  end.

Definition rfind (c : N) (l : pystr) : Z := rfind_from c l 0%Z (-1)%Z.

Definition SLASH : N := 47%N.

(** The [while filenameIndex < dotIndex] loop of [posixpath._splitext]:
    [true] when a character other than '.' is met before the last dot. *)
Fixpoint splitext_loop (fuel : nat) (p : pystr) (fi dot : Z) : bool :=
  match fuel with
  | 0 => false
  | S f =>
      if (fi <? dot)%Z then
        if (nth (Z.to_nat fi) p DOT =? DOT)%N then splitext_loop f p (fi + 1)%Z dot
        else true
      else false
  end.

(** [os.path.splitext] (POSIX). *)
Definition splitext (p : pystr) : pystr * pystr :=
  let sep := rfind SLASH p in
  let dot := rfind DOT p in
  if (sep <? dot)%Z then
    if splitext_loop (length p) p (sep + 1)%Z dot
    then (firstn (Z.to_nat dot) p, skipn (Z.to_nat dot) p)
    else (p, [])
  else (p, []).

Record datetime := mkDatetime {
  year : nat; month : nat; day : nat; hour : nat; minute : nat; second : nat }.

Fixpoint digits_fuel (fuel n : nat) : list nat :=
  match fuel with
  | 0 => []
  | S f => if n <? 10 then [n] else digits_fuel f (n / 10) ++ [n mod 10]
  end.

(** Decimal digits of [n], zero-padded on the left to width [w]. *)
Definition zpad (w n : nat) : pystr :=
  let ds := digits_fuel (S n) n in
  map (fun d => N.of_nat (48 + d)) (repeat 0 (w - length ds) ++ ds).

(** [now.strftime('%Y%m%d_%H%M%S')]; glibc writes [%Y] without padding. *)
Definition strftime_stamp (t : datetime) : pystr :=
  zpad 0 (year t) ++ zpad 2 (month t) ++ zpad 2 (day t) ++ s2l "_" ++
  zpad 2 (hour t) ++ zpad 2 (minute t) ++ zpad 2 (second t).

(** [f"{os.path.splitext(input_file)[0]}_urdu_{...}.xml"] *)
Definition default_output_file (input_file : pystr) (now : datetime) : pystr :=
  fst (splitext input_file) ++ s2l "_urdu_" ++ strftime_stamp now ++ s2l ".xml".

(** ** The pipeline [translate_xml_to_urdu] (lines 83-148) *)

(** What a path names: a file, holding a document [ET.parse] accepts or
    anything it rejects (or the process cannot read), or a directory. *)
Inductive file := FDoc (root : node) | FUnparsable.

Inductive entry := EFile (f : file) | EDir.

(** The file system the script sees. [fs_canon] resolves a path to the file
    it names (relative and absolute spellings, './', symbolic links), and
    entries are kept under resolved names, so all aliases of a file share
    one entry. [fs_writable] tells whether the process may create or replace
    the entry at a resolved name. *)
Record filesystem := mkFS {
  fs_canon : pystr -> pystr;
  fs_entries : pystr -> option entry;
  fs_writable : pystr -> bool }.

Definition fs_lookup (fs : filesystem) (p : pystr) : option entry :=
  fs_entries fs (fs_canon fs p).

(** [os.path.exists] *)
Definition path_exists (fs : filesystem) (p : pystr) : bool :=
  match fs_lookup fs p with Some _ => true | None => false end.

(** [os.path.isdir] *)
Definition is_dir (fs : filesystem) (p : pystr) : bool :=
  match fs_lookup fs p with Some EDir => true | _ => false end.

Definition fs_put (fs : filesystem) (p : pystr) (e : entry) : filesystem :=
  mkFS (fs_canon fs)
       (fun q => if list_eqb q (fs_canon fs p) then Some e else fs_entries fs q)
       (fs_writable fs).

Definition nonempty (l : pystr) : bool := match l with [] => false | _ => true end.

Fixpoint drop_slashes (l : pystr) : pystr :=
  match l with
  | c :: r => if (c =? SLASH)%N then drop_slashes r else l
  | [] => []
  end.

(** [p.rstrip('/')] *)
Definition rstrip_slash (p : pystr) : pystr := rev (drop_slashes (rev p)).

(** [posixpath.split] *)
Definition path_split (p : pystr) : pystr * pystr :=
  let i := Z.to_nat (rfind SLASH p + 1) in
  let head := firstn i p in
  (if forallb (N.eqb SLASH) head then head else rstrip_slash head, skipn i p).

(** [os.path.dirname] *)
Definition dirname (p : pystr) : pystr := fst (path_split p).

(** The directory in which the system creates the entry [p]. *)
Definition os_parent (p : pystr) : pystr :=
  match dirname (rstrip_slash p) with [] => s2l "." | d => d end.

(** The outcome of a directory operation: done, [FileExistsError], or
    another [OSError]. *)
Inductive os_status := OsOk | OsExists | OsFailed.

(** [os.mkdir] *)
Definition mkdir (fs : filesystem) (p : pystr) : filesystem * os_status :=
  if path_exists fs p then (fs, OsExists)
  else if nonempty p && is_dir fs (os_parent p) && fs_writable fs (fs_canon fs p)
  then (fs_put fs p EDir, OsOk)
  else (fs, OsFailed).

(** [os.makedirs(name)] with [exist_ok=False], as in Python's os.py:
    missing ancestors first (a [FileExistsError] there is passed over), then
    [mkdir(name)]. The recursion is on a strictly shorter path. *)
Fixpoint makedirs (fuel : nat) (fs : filesystem) (name : pystr) : filesystem * os_status :=
  match fuel with
  | 0 => (fs, OsFailed)
  | S f =>
      let '(head, tail) :=
        let '(h, t) := path_split name in
        match t with [] => path_split h | _ => (h, t) end in
      if nonempty head && nonempty tail && negb (path_exists fs head) then
        let '(fs1, st) := makedirs f fs head in
        match st with
        | OsFailed => (fs1, OsFailed)
        | _ => if list_eqb tail (s2l ".") then (fs1, OsOk) else mkdir fs1 name
        end
      else mkdir fs name
  end.

(** *** Saving the tree (lines 127-141) *)

(** The characters XML 1.0 allows, and its white space. *)
Definition xml_char (c : N) : bool :=
  ((c =? 9) || (c =? 10) || (c =? 13) || ((32 <=? c) && (c <=? 55295)) ||
   ((57344 <=? c) && (c <=? 65533)) || ((65536 <=? c) && (c <=? 1114111)))%N.

Definition xml_space (c : N) : bool := ((c =? 32) || (c =? 9) || (c =? 10) || (c =? 13))%N.

Definition opt_chars_ok (x : option pystr) : bool :=
  match x with Some s => forallb xml_char s | None => true end.

Fixpoint chars_ok (n : node) : bool :=
  match n with
  | Node _ a x t cs =>
      forallb (fun kv => forallb xml_char (snd kv)) a && opt_chars_ok x && opt_chars_ok t &&
      forallb chars_ok cs
  end.

(** [minidom.parseString] accepts what [tree.write] produced: every string
    is made of XML characters, and the root's tail, written after the root
    element, is white space. Otherwise it raises, and the file [tree.write]
    left is one no XML parser accepts. *)
Definition doc_ok (root : node) : bool :=
  chars_ok root &&
  match tail_of root with Some s => forallb xml_space s | None => true end.

Definition LF : N := 10%N.
Definition CR : N := 13%N.

(** An XML parser's line-end handling: CR LF and a lone CR become LF. *)
Fixpoint norm_newlines_from (after_cr : bool) (s : pystr) : pystr :=
  match s with
  | [] => []
  | c :: r =>
      if (c =? CR)%N then LF :: norm_newlines_from true r
      else if after_cr && (c =? LF)%N then norm_newlines_from false r
      else c :: norm_newlines_from false r
  end.

Definition norm_newlines (s : pystr) : pystr := norm_newlines_from false s.

(** An attribute value after the round trip: [tree.write] writes tab, CR and
    LF as character references, [minidom] (Python 3.11) writes them back
    literally, and the parser then turns each into a space. *)
Definition attr_value_norm (s : pystr) : pystr :=
  map (fun c => if xml_space c then 32%N else c) (norm_newlines s).

Definition INDENT : pystr := s2l "  ".

(** The DOM text node of an ElementTree text or tail: none for [None] or ''. *)
Definition text_node (x : option pystr) : option pystr :=
  match x with Some ((_ :: _) as s) => Some (norm_newlines s) | _ => None end.

(** [Text.writexml] at indentation [ind]: indentation, data, newline. *)
Definition text_line (ind : pystr) (x : option pystr) : pystr :=
  match text_node x with Some d => ind ++ d ++ [LF] | None => [] end.

Definition with_tail (n : node) (t : option pystr) : node :=
  match n with Node tg a x _ cs => Node tg a x t cs end.

(** The tree [ET.parse] reads from [toprettyxml(indent="  ")] of the DOM of
    the written tree, for an element written at indentation [ind]
    ([Element.writexml]): an element whose only DOM child is a text keeps
    it inline; otherwise each DOM child goes on a line of its own, one level
    deeper, so texts and tails get the newlines and indentation around them. *)
Fixpoint reindent (ind : pystr) (n : node) {struct n} : node :=
  match n with
  | Node tg a x _ cs =>
      let a' := map (fun kv => (fst kv, attr_value_norm (snd kv))) a in
      let ind' := ind ++ INDENT in
      match cs with
      | [] => Node tg a' (text_node x) None []
      | _ :: _ =>
          Node tg a' (Some ([LF] ++ text_line ind' x ++ ind')) None
            ((fix go (l : list node) : list node :=
                match l with
                | [] => []
                | c :: r =>
                    with_tail (reindent ind' c)
                      (Some ([LF] ++ text_line ind' (tail_of c) ++
                             match r with [] => ind | _ :: _ => ind' end)) :: go r
                end) cs)
      end
  end.

(** [open(path, 'wb')] succeeds: a path not ending in '/', not a directory,
    in an existing directory, and writable. *)
Definition open_wb_ok (fs : filesystem) (p : pystr) : bool :=
  match rev p with [] => false | c :: _ => negb (c =? SLASH)%N end &&
  negb (is_dir fs p) && is_dir fs (os_parent p) && fs_writable fs (fs_canon fs p).

(** Lines 127-141: create the output directory when it is missing, then
    [tree.write], re-read the file, re-indent it with [minidom] and write it
    again. The result is the file system afterwards and whether no
    exception was raised. *)
Definition save_tree (fs : filesystem) (out : pystr) (root : node) : filesystem * bool :=
  let d := dirname out in
  let '(fs1, st) :=
    if nonempty d && negb (path_exists fs d) then makedirs (S (length d)) fs d
    else (fs, OsOk) in
  match st with
  | OsOk =>
      if open_wb_ok fs1 out then
        if doc_ok root then (fs_put fs1 out (EFile (FDoc (reindent [] root))), true)
        else (fs_put fs1 out (EFile FUnparsable), false)
      else (fs1, false)
  | _ => (fs1, false)
  end.

Inductive msg :=
  | MWillSaveTo (p : pystr)        (* "No output file specified. Will save to: ..." *)
  | MCollecting                    (* "Collecting translatable text..." *)
  | MNoText                        (* "No translatable text found in the XML file." *)
  | MFound (n : nat)               (* "Found n texts to translate" *)
  | MStarting                      (* "Starting batch translation..." *)
  | MUpdating                      (* "Updating XML with translations..." *)
  | MCompleted (p : pystr)         (* "Translation completed. Saved to: ..." *)
  | MError                         (* "Error occurred: ..." *)
  | MUsage                         (* the usage text of [main] *)
  | MNotFound (p : pystr)          (* "Error: Input file '...' not found." *)
  | MNotXml.                       (* "Error: Input file must be an XML file." *)

Inductive status := Returned (p : pystr) | Exited (code : nat).

Record run := mkRun {
  run_fs : filesystem; run_log : list msg; run_trace : list event; run_status : status }.

Definition unit_text (u : tunit) : pystr := let '(s, _, _) := u in s.

(** Any exception inside the [try] (lines 85-148) prints the error and
    exits with status 1. *)
Definition translate_xml_to_urdu (fs : filesystem) (tr : list pystr -> tr_result)
    (now : datetime) (input_file : pystr) (output_file : option pystr) : run :=
  let '(out, log0) :=
    match output_file with
    | None => let o := default_output_file input_file now in (o, [MWillSaveTo o])
    | Some o => (o, [])
    end in
  match fs_lookup fs input_file with
  | Some (EFile (FDoc root)) =>
      let log1 := log0 ++ [MCollecting] in
      match collect_translatable_text root with
      | [] => mkRun fs (log1 ++ [MNoText]) [] (Returned out)
      | units =>
          let texts := map unit_text units in
          match batch_translate tr texts DEFAULT_BATCH_SIZE with
          | Some (translated, ev) =>
              let root' := write_translations root units translated in
              let log2 := log1 ++ [MFound (length units); MStarting; MUpdating] in
              let '(fs', ok) := save_tree fs out root' in
              if ok then mkRun fs' (log2 ++ [MCompleted out]) ev (Returned out)
              else mkRun fs' (log2 ++ [MError]) ev (Exited 1)
          | None => mkRun fs (log1 ++ [MError]) [] (Exited 1)
          end
      end
  | _ => mkRun fs (log0 ++ [MError]) [] (Exited 1)
  end.

(** ** [main] (lines 150-175) *)

Inductive main_result :=
  | MainExit (code : nat) (log : list msg)
  | MainRun (input_file : pystr) (output_file : option pystr).

(** [str.lower] on ASCII letters (other code points are left as they are). *)
Definition lower_char (c : N) : N :=
  if ((65 <=? c) && (c <=? 90))%N then (c + 32)%N else c.

Definition lower (s : pystr) : pystr := map lower_char s.

Definition endswith (s suf : pystr) : bool :=
  (length suf <=? length s) && list_eqb (skipn (length s - length suf) s) suf.

Definition main (argv : list pystr) (exists_ : pystr -> bool) : main_result :=
  if length argv <? 2 then MainExit 1 [MUsage]
  else
    let input_file := nth 1 argv [] in
    let output_file := if 2 <? length argv then Some (nth 2 argv []) else None in
    if negb (exists_ input_file) then MainExit 1 [MNotFound input_file]
    else if negb (endswith (lower input_file) (s2l ".xml")) then MainExit 1 [MNotXml]
    else MainRun input_file output_file.

(** ** Observations used by the statements *)

(** The children part of [collect_from_element], named. *)
Fixpoint collect_children (p : path) (i : nat) (cs : list node) : list tunit :=
  match cs with
  | [] => []
  | c :: r => collect_from_element (p ++ [i]) c ++ collect_children p (S i) r
  end.

(** A field of an element, as the Writer's slot identifiers designate it. *)
Inductive field := FText | FTail | FAttr (k : pystr).

(** The field a slot identifier is written to (lines 120-125). *)
Definition slot_field (slot : pystr) : field :=
  if list_eqb slot TEXT then FText
  else if list_eqb slot TAIL then FTail
  else FAttr slot.

Fixpoint lookup (k : pystr) (a : list (pystr * pystr)) : option pystr :=
  match a with
  | [] => None
  | (k', v) :: r => if list_eqb k k' then Some v else lookup k r
  end.

Definition read_field (n : node) (f : field) : option pystr :=
  match f with
  | FText => text_of n
  | FTail => tail_of n
  | FAttr k => lookup k (attrib_of n)
  end.

(** The value of field [f] of the element at [p], if there is such an element. *)
Definition read_at (root : node) (p : path) (f : field) : option pystr :=
  match get_at p root with
  | Some n => read_field n f
  | None => None
  end.

(** The structure of a tree: tags, attribute names, children in order. *)
Inductive skel := Skel (tag : pystr) (attr_names : list pystr) (children : list skel).

Fixpoint shape (n : node) : skel :=
  match n with
  | Node tg a _ _ cs => Skel tg (map fst a) (map shape cs)
  end.

Fixpoint node_count (n : node) : nat :=
  match n with
  | Node _ _ _ _ cs => S (list_sum (map node_count cs))
  end.

(** The per-batch output of the adapter. *)
Definition batch_output (batch : list pystr) (r : tr_result) : list pystr :=
  match r with
  | TRaise => batch
  | TList rs => rs
  | TSingle x => [x]
  end.

(** The external translator's contract: one result per input string. *)
Definition one_per_input (batch : list pystr) (r : tr_result) : Prop :=
  match r with
  | TRaise => True
  | TList rs => length rs = length batch
  | TSingle _ => length batch = 1
  end.

(** The batch that position [k] belongs to. *)
Definition batch_of (bs : nat) (texts : list pystr) (k : nat) : list pystr :=
  slice (k / bs * bs) (k / bs * bs + bs) texts.

(** *** The Collector as the spec words it (section 4.1) *)

Inductive candidate := CText (s : pystr) | CTail (s : pystr) | CAttr (k v : pystr).

Definition candidates (n : node) : list candidate :=
  match n with
  | Node _ a x t _ =>
      match x with Some s => [CText s] | None => [] end ++
      match t with Some s => [CTail s] | None => [] end ++
      map (fun '(k, v) => CAttr k v) a
  end.

Definition cand_value (c : candidate) : pystr :=
  match c with CText s | CTail s => s | CAttr _ v => v end.

Definition cand_slot (c : candidate) : pystr :=
  match c with CText _ => TEXT | CTail _ => TAIL | CAttr k _ => k end.

(** Non-empty after trimming, no '%', and not an identifier attribute. *)
Definition included_spec (c : candidate) : bool :=
  truthy (strip (cand_value c)) && negb (contains PERCENT (cand_value c)) &&
  match c with
  | CAttr k _ => negb (existsb (list_eqb k) excluded_attrs)
  | _ => true
  end.

(** The queued string: trimmed, then '…' replaced by '...'. *)
Definition queued (c : candidate) : pystr := replace_ellipsis (strip (cand_value c)).

(** Pre-order listing of the elements with their paths. *)
Fixpoint preorder (p : path) (n : node) : list (path * node) :=
  (p, n) ::
  match n with
  | Node _ _ _ _ cs =>
      (fix go (i : nat) (l : list node) : list (path * node) :=
         match l with
         | [] => []
         | c :: r => preorder (p ++ [i]) c ++ go (S i) r
         end) 0 cs
  end.

Fixpoint preorder_children (p : path) (i : nat) (cs : list node) : list (path * node) :=
  match cs with
  | [] => []
  | c :: r => preorder (p ++ [i]) c ++ preorder_children p (S i) r
  end.

Definition node_units_spec (p : path) (n : node) : list tunit :=
  flat_map (fun c => if included_spec c then [(queued c, p, cand_slot c)] else [])
           (candidates n).

Definition units_spec (root : node) : list tunit :=
  flat_map (fun '(p, n) => node_units_spec p n) (preorder [] root).

(** *** Names of output files *)

Definition is_digit (c : N) : bool := ((48 <=? c) && (c <=? 57))%N.

Definition digits_of_len (w : nat) (l : pystr) : bool :=
  (length l =? w) && forallb is_digit l.

(** [YYYYMMDD_HHMMSS] *)
Definition is_stamp (s : pystr) : bool :=
  (length s =? 15) && forallb is_digit (firstn 8 s) &&
  (nth 8 s 0 =? 95)%N && forallb is_digit (skipn 9 s).

(** [s] is [prefix ++ YYYYMMDD_HHMMSS ++ ".xml"]. *)
Definition matches_name (prefix s : pystr) : bool :=
  (length s =? length prefix + 19) &&
  list_eqb (firstn (length prefix) s) prefix &&
  is_stamp (firstn 15 (skipn (length prefix) s)) &&
  list_eqb (skipn (length prefix + 15) s) (s2l ".xml").

(** A [datetime.now()] value with a four-digit year. *)
Definition valid_now (t : datetime) : Prop :=
  (1000 <= year t /\ year t <= 9999) /\ (1 <= month t /\ month t <= 12) /\
  (1 <= day t /\ day t <= 31) /\ hour t < 24 /\ minute t < 60 /\ second t < 60.

(** *** Observations of the adapter's trace *)

(** The batches handed to [translator.translate], in call order. *)
Fixpoint translate_calls (ev : list event) : list (list pystr) :=
  match ev with
  | [] => []
  | ETranslate b :: r => b :: translate_calls r
  | _ :: r => translate_calls r
  end.

(** The number of [time.sleep] calls. *)
Fixpoint sleep_count (ev : list event) : nat :=
  match ev with
  | [] => 0
  | ESleep _ :: r => S (sleep_count r)
  | _ :: r => sleep_count r
  end.

(** The batches [texts[i:i + batch_size]] of the loop, in order. *)
Definition batches (texts : list pystr) (bs : nat) : list (list pystr) :=
  map (fun i => slice i (i + bs) texts) (py_range (length texts) bs).

Definition raised (r : tr_result) : bool :=
  match r with TRaise => true | _ => false end.

(** The events one iteration of the loop appends, for the batch at [i]. *)
Definition step_events (tr : list pystr -> tr_result) (texts : list pystr) (bs i : nat)
    : list event :=
  let batch := slice i (i + bs) texts in
  ETranslate batch ::
  (if raised (tr batch) then [EPrintErr (i / bs + 1)]
   else [EPrintOk (i / bs + 1) ((length texts + bs - 1) / bs); ESleep 1]).

(** The output path of [translate_xml_to_urdu] (lines 87-88). *)
Definition output_path (input_file : pystr) (output_file : option pystr) (now : datetime)
    : pystr :=
  match output_file with Some o => o | None => default_output_file input_file now end.

(** [fs'] is [fs] with directories added where there was nothing. *)
Definition adds_dirs (fs fs' : filesystem) : Prop :=
  fs_canon fs' = fs_canon fs /\ fs_writable fs' = fs_writable fs /\
  forall q, fs_entries fs' q = fs_entries fs q \/
            (fs_entries fs q = None /\ fs_entries fs' q = Some EDir).

(** The batch numbers the adapter prints, in order, and the totals of its
    "Translated batch i of n" lines. *)
Fixpoint printed_batches (ev : list event) : list nat :=
  match ev with
  | [] => []
  | EPrintOk i _ :: r | EPrintErr i :: r => i :: printed_batches r
  | _ :: r => printed_batches r
  end.

Fixpoint printed_totals (ev : list event) : list nat :=
  match ev with
  | [] => []
  | EPrintOk _ t :: r => t :: printed_totals r
  | _ :: r => printed_totals r
  end.

(** *** Sample inputs *)

(** A translator that fails on single-string batches and echoes the others. *)
Definition tr_fail_single (b : list pystr) : tr_result :=
  if length b =? 1 then TRaise else TList b.

(** A one-string document stored at [strings.xml]. *)
Definition sample_root : node :=
  Node (s2l "resources") [] None None [Node (s2l "string") [] (Some (s2l "Hello")) None []].

(** A file system without aliases or permission limits: the current
    directory '.' and the given documents. *)
Definition simple_fs (files : list (pystr * node)) : filesystem :=
  mkFS (fun p => p)
       (fun q => if list_eqb q (s2l ".") then Some EDir
                 else match find (fun kv => list_eqb (fst kv) q) files with
                      | Some (_, n) => Some (EFile (FDoc n))
                      | None => None
                      end)
       (fun _ => true).

Definition sample_fs : filesystem := simple_fs [(s2l "strings.xml", sample_root)].

(** A translator that appends "!" to each string and fails on
    single-string batches. *)
Definition tr_bang_fail_single (b : list pystr) : tr_result :=
  if length b =? 1 then TRaise else TList (map (fun s => s ++ s2l "!") b).

Definition sample_now : datetime := mkDatetime 2026 10 17 9 30 0.

(** ** Proofs *)

(** Induction over trees with the hypothesis on every child. *)
Fixpoint node_rect' (P : node -> Prop)
    (H : forall tg a x t cs, Forall P cs -> P (Node tg a x t cs)) (n : node) : P n :=
  match n with
  | Node tg a x t cs =>
      H tg a x t cs
        ((fix go (l : list node) : Forall P l :=
            match l with
            | [] => Forall_nil P
            | c :: r => Forall_cons c (node_rect' P H c) (go r)
            end) cs)
  end.

Lemma collect_from_element_eq p tg a x t cs :
  collect_from_element p (Node tg a x t cs) =
  opt_units x p TEXT ++ opt_units t p TAIL ++ attr_units a p ++ collect_children p 0 cs.
Proof.
  simpl. do 3 f_equal. generalize 0. induction cs as [|c r IH]; intro i; simpl; congruence.
Qed.

Lemma preorder_eq p tg a x t cs :
  preorder p (Node tg a x t cs) = (p, Node tg a x t cs) :: preorder_children p 0 cs.
Proof.
  simpl. f_equal. generalize 0. induction cs as [|c r IH]; intro i; simpl; congruence.
Qed.

Lemma clean_text_replace (s : pystr) : clean_text s = replace_ellipsis s.
Proof. destruct s; reflexivity. Qed.

Lemma truthy_strip_and (s : pystr) : truthy s && truthy (strip s) = truthy (strip s).
Proof. destruct s; reflexivity. Qed.

Lemma opt_units_text p s :
  opt_units (Some s) p TEXT =
  if included_spec (CText s) then [(queued (CText s), p, TEXT)] else [].
Proof.
  unfold opt_units, text_cond, included_spec, queued; simpl.
  rewrite truthy_strip_and, clean_text_replace, andb_true_r. reflexivity.
Qed.

Lemma opt_units_tail p s :
  opt_units (Some s) p TAIL =
  if included_spec (CTail s) then [(queued (CTail s), p, TAIL)] else [].
Proof.
  unfold opt_units, text_cond, included_spec, queued; simpl.
  rewrite truthy_strip_and, clean_text_replace, andb_true_r. reflexivity.
Qed.

Lemma attr_cond_spec k v : attr_cond k v = included_spec (CAttr k v).
Proof.
  unfold attr_cond, included_spec, not_in_excluded; cbn [cand_value].
  rewrite truthy_strip_and.
  destruct (truthy (strip v)), (contains PERCENT v), (existsb (list_eqb k) excluded_attrs);
    reflexivity.
Qed.

Lemma node_units_spec_eq p tg a x t cs :
  opt_units x p TEXT ++ opt_units t p TAIL ++ attr_units a p =
  node_units_spec p (Node tg a x t cs).
Proof.
  unfold node_units_spec, candidates.
  rewrite !flat_map_app. f_equal.
  { destruct x as [s|]; [|reflexivity]. rewrite opt_units_text. simpl.
    destruct (included_spec (CText s)); reflexivity. }
  f_equal.
  { destruct t as [s|]; [|reflexivity]. rewrite opt_units_tail. simpl.
    destruct (included_spec (CTail s)); reflexivity. }
  unfold attr_units. rewrite flat_map_concat_map, flat_map_concat_map, map_map.
  f_equal. apply map_ext. intros [k v].
  rewrite attr_cond_spec, clean_text_replace. reflexivity.
Qed.

Lemma collect_from_element_spec (e : node) :
  forall p, collect_from_element p e = flat_map (fun '(q, n) => node_units_spec q n) (preorder p e).
Proof.
  induction e as [tg a x t cs IH] using node_rect'. intro p.
  rewrite collect_from_element_eq, preorder_eq. simpl.
  rewrite app_assoc, app_assoc, <- (app_assoc (opt_units x p TEXT)),
    node_units_spec_eq with (tg := tg) (cs := cs).
  f_equal. generalize 0. induction IH as [|c r Hc Hr IHr]; intro i; simpl; [reflexivity|].
  rewrite flat_map_app, Hc, IHr. reflexivity.
Qed.

Lemma collect_spec (root : node) : collect_translatable_text root = units_spec root.
Proof. apply collect_from_element_spec. Qed.

Lemma preorder_children_in (cs : list node) :
  Forall (fun c => forall p q n, In (q, n) (preorder p c) ->
                     exists r, q = p ++ r /\ get_at r c = Some n) cs ->
  forall p i q n, In (q, n) (preorder_children p i cs) ->
  exists j c r, nth_error cs j = Some c /\ q = p ++ [i + j] ++ r /\ get_at r c = Some n.
Proof.
  induction 1 as [|c l Hc Hl IHl]; intros p i q n Hin; simpl in Hin; [contradiction|].
  apply in_app_or in Hin as [Hin|Hin].
  - destruct (Hc _ _ _ Hin) as [r [-> Hr]].
    exists 0, c, r. rewrite Nat.add_0_r, <- app_assoc. auto.
  - destruct (IHl _ _ _ _ Hin) as [j [c' [r [Hj [-> Hr]]]]].
    exists (S j), c', r. rewrite Nat.add_succ_r. auto.
Qed.

Lemma preorder_in (e : node) :
  forall p q n, In (q, n) (preorder p e) -> exists r, q = p ++ r /\ get_at r e = Some n.
Proof.
  induction e as [tg a x t cs IH] using node_rect'. intros p q n Hin.
  rewrite preorder_eq in Hin. destruct Hin as [Heq|Hin].
  - injection Heq as <- <-. exists []. rewrite app_nil_r. auto.
  - destruct (preorder_children_in cs IH p 0 q n Hin) as [j [c [r [Hj [-> Hr]]]]].
    exists (j :: r). split; [reflexivity|]. simpl. rewrite Hj. exact Hr.
Qed.

Lemma units_spec_in (root : node) q p s :
  In (q, p, s) (units_spec root) ->
  exists n c, get_at p root = Some n /\ In c (candidates n) /\ included_spec c = true /\
              cand_slot c = s /\ q = queued c.
Proof.
  unfold units_spec. rewrite in_flat_map. intros [[p' n] [Hpre Hu]].
  destruct (preorder_in root [] p' n Hpre) as [r [-> Hr]].
  unfold node_units_spec in Hu. rewrite in_flat_map in Hu.
  destruct Hu as [c [Hc Hu]].
  destruct (included_spec c) eqn:Hinc; [|contradiction].
  destruct Hu as [Hu|[]]. injection Hu as H1 H2 H3. subst.
  exists n, c. auto.
Qed.

(** ** C4: the Collector's inclusion rule *)

(** C4: the Collector emits, in pre-order, exactly one unit per candidate
    string (element text, element tail, attribute value) that is non-empty
    after trimming, contains no '%' and, for an attribute, is not named
    'name', 'id' or 'identifier'; so the text "%d items" is never collected
    and an attribute named 'id' never is, whatever its value. *)
Theorem C4_collector_inclusion :
  (forall root, collect_translatable_text root = units_spec root) /\
  included_spec (CText (s2l "%d items")) = false /\
  (forall v, included_spec (CAttr (s2l "id") v) = false) /\
  collect_translatable_text
    (Node (s2l "item") [(s2l "id", s2l "Hello World")] (Some (s2l "%d items")) None [])
  = [].
Proof.
  split; [exact collect_spec|].
  split; [reflexivity|].
  split; [|reflexivity].
  intro v. unfold included_spec. cbn [cand_value].
  destruct (truthy (strip v)), (contains PERCENT v); reflexivity.
Qed.

(** ** C5: the queued string *)

(** C5: every collected unit queues the trimmed value of its candidate with
    each '…' replaced by '...'; the text "Loading…" is queued as "Loading...". *)
Theorem C5_queued_string :
  (forall root q p s, In (q, p, s) (collect_translatable_text root) ->
     exists n c, get_at p root = Some n /\ In c (candidates n) /\
                 included_spec c = true /\ cand_slot c = s /\
                 q = replace_ellipsis (strip (cand_value c))) /\
  collect_translatable_text
    (Node (s2l "string") [] (Some (s2l "Loading" ++ [ELLIPSIS])) None [])
  = [(s2l "Loading...", [], TEXT)].
Proof.
  split; [|reflexivity].
  intros root q p s Hin. rewrite collect_spec in Hin.
  exact (units_spec_in root q p s Hin).
Qed.

(** ** The adapter: output as a concatenation of per-batch outputs *)

Lemma batch_translate_fst tr texts bs l acc :
  fst (fold_left (batch_step tr texts bs) l acc) =
  fst acc ++ flat_map (fun i => batch_output (slice i (i + bs) texts)
                                              (tr (slice i (i + bs) texts))) l.
Proof.
  revert acc. induction l as [|i l IH]; intros [o e]; simpl.
  - rewrite app_nil_r. reflexivity.
  - rewrite IH. unfold batch_step. simpl.
    destruct (tr (slice i (i + bs) texts)); simpl; rewrite <- app_assoc; reflexivity.
Qed.

Lemma batch_step_trace_mono tr texts bs l acc ev :
  In ev (snd acc) -> In ev (snd (fold_left (batch_step tr texts bs) l acc)).
Proof.
  revert acc. induction l as [|i l IH]; intros [o e] H; simpl; [exact H|].
  apply IH. unfold batch_step. simpl.
  destruct (tr (slice i (i + bs) texts)); simpl; apply in_or_app; left; exact H.
Qed.

Lemma batch_step_trace_calls tr texts bs l acc i :
  In i l -> In (ETranslate (slice i (i + bs) texts))
                (snd (fold_left (batch_step tr texts bs) l acc)).
Proof.
  revert acc. induction l as [|j l IH]; intros [o e] H; simpl in H |- *; [contradiction|].
  destruct H as [->|H]; [|apply IH, H].
  apply batch_step_trace_mono. unfold batch_step. simpl.
  destruct (tr (slice i (i + bs) texts)); simpl; apply in_or_app; right; left; reflexivity.
Qed.

Lemma slice_length i bs (texts : list pystr) :
  length (slice i (i + bs) texts) = Nat.min bs (length texts - i).
Proof.
  unfold slice. rewrite length_firstn, length_skipn. f_equal. lia.
Qed.

Lemma slice_nth i bs (texts : list pystr) j :
  j < bs -> nth j (slice i (i + bs) texts) [] = nth (i + j) texts [].
Proof.
  intro Hj. unfold slice. rewrite nth_firstn, nth_skipn.
  replace (j <? i + bs - i) with true; [reflexivity|].
  symmetry. apply Nat.ltb_lt. lia.
Qed.

(** Positional structure of [range(0, n, bs)] batches. *)
Lemma chunks_nth (bs n : nat) (g : nat -> list pystr) :
  0 < bs ->
  (forall m, length (g (m * bs)) = Nat.min bs (n - m * bs)) ->
  forall fuel m, n - m * bs <= fuel ->
  length (flat_map g (range_from fuel (m * bs) n bs)) = n - m * bs /\
  (forall k, k < n - m * bs ->
     nth k (flat_map g (range_from fuel (m * bs) n bs)) [] =
     nth ((m * bs + k) mod bs) (g ((m * bs + k) / bs * bs)) []).
Proof.
  intros Hbs Hg fuel. induction fuel as [|f IH]; intros m Hf.
  - simpl. split; [lia|]. intros k Hk. lia.
  - simpl. destruct (m * bs <? n) eqn:Hlt.
    2:{ apply Nat.ltb_ge in Hlt. simpl. split; [lia|]. intros k Hk. lia. }
    apply Nat.ltb_lt in Hlt.
    replace (m * bs + bs) with (S m * bs) by (simpl; lia).
    destruct (IH (S m)) as [IHlen IHnth]; [simpl; lia|].
    change (flat_map g (m * bs :: range_from f (S m * bs) n bs))
      with (g (m * bs) ++ flat_map g (range_from f (S m * bs) n bs)).
    rewrite length_app, IHlen, Hg.
    split; [simpl in *; lia|].
    intros k Hk.
    destruct (Nat.lt_ge_cases k (length (g (m * bs)))) as [Hk1|Hk1].
    + rewrite app_nth1 by exact Hk1.
      rewrite Hg in Hk1.
      assert (Hkb : k < bs) by lia.
      replace ((m * bs + k) / bs) with m.
      2:{ rewrite Nat.div_add_l by lia. rewrite Nat.div_small by exact Hkb. lia. }
      replace ((m * bs + k) mod bs) with k; [reflexivity|].
      rewrite Nat.add_comm, Nat.Div0.mod_add, Nat.mod_small by exact Hkb. reflexivity.
    + rewrite app_nth2 by exact Hk1.
      rewrite Hg in Hk1 |- *.
      assert (Hkb : bs <= k) by lia.
      replace (Nat.min bs (n - m * bs)) with bs by lia.
      rewrite IHnth by (simpl in *; lia).
      replace (S m * bs + (k - bs)) with (m * bs + k) by (simpl; lia).
      reflexivity.
Qed.

Lemma one_per_input_length b r :
  one_per_input b r -> length (batch_output b r) = length b.
Proof. destruct r; simpl; auto. Qed.

(** The adapter's output, position by position. *)
Lemma batch_translate_positions tr texts bs :
  0 < bs -> (forall b, one_per_input b (tr b)) ->
  exists out ev, batch_translate tr texts bs = Some (out, ev) /\
    length out = length texts /\
    (forall k, k < length texts ->
       nth k out [] = nth (k mod bs) (batch_output (batch_of bs texts k)
                                                    (tr (batch_of bs texts k))) []) /\
    (forall i, In i (py_range (length texts) bs) ->
       In (ETranslate (slice i (i + bs) texts)) ev).
Proof.
  intros Hbs Htr. unfold batch_translate.
  destruct (bs =? 0) eqn:H0; [apply Nat.eqb_eq in H0; lia|].
  set (F := fold_left (batch_step tr texts bs) (py_range (length texts) bs) ([], [])).
  exists (fst F), (snd F). split; [rewrite <- surjective_pairing; reflexivity|].
  unfold F. rewrite batch_translate_fst. simpl fst. rewrite app_nil_l.
  set (g := fun i => batch_output (slice i (i + bs) texts) (tr (slice i (i + bs) texts))).
  assert (Hg : forall m, length (g (m * bs)) = Nat.min bs (length texts - m * bs)).
  { intro m. unfold g. rewrite one_per_input_length by apply Htr. apply slice_length. }
  destruct (chunks_nth bs (length texts) g Hbs Hg (length texts) 0) as [Hlen Hnth];
    [lia|].
  simpl in Hlen, Hnth. unfold py_range.
  split; [rewrite Hlen; lia|].
  split.
  - intros k Hk. rewrite Hnth by lia. reflexivity.
  - intros i Hi. apply batch_step_trace_calls. exact Hi.
Qed.

(** ** The Writer: what a slot write changes *)

Lemma nth_error_map_nth {A} i (f : A -> A) (l : list A) j :
  nth_error (map_nth i f l) j =
  if Nat.eqb i j then option_map f (nth_error l j) else nth_error l j.
Proof.
  revert i j. induction l as [|x r IH]; intros i j.
  - simpl. destruct (Nat.eqb i j), j; reflexivity.
  - destruct i, j; simpl; try reflexivity. apply IH.
Qed.

Lemma map_nth_out {A} i (f : A -> A) (l : list A) :
  nth_error l i = None -> map_nth i f l = l.
Proof.
  revert i. induction l as [|x r IH]; intros [|i] H; simpl in *; try discriminate; auto.
  f_equal. apply IH, H.
Qed.

Lemma read_at_nil n fl : read_at n [] fl = read_field n fl.
Proof. reflexivity. Qed.

Lemma read_at_cons n j q fl :
  read_at n (j :: q) fl =
  match nth_error (children_of n) j with Some c => read_at c q fl | None => None end.
Proof. unfold read_at. simpl. destruct (nth_error (children_of n) j); reflexivity. Qed.

Lemma get_at_update_same f p n : get_at p (update_at f p n) = option_map f (get_at p n).
Proof.
  revert n. induction p as [|i q IH]; intros [tg a x t cs]; [reflexivity|].
  simpl. rewrite nth_error_map_nth, Nat.eqb_refl.
  destruct (nth_error cs i); simpl; [apply IH|reflexivity].
Qed.

Lemma update_at_children f p n :
  (forall m, children_of (f m) = children_of m) ->
  forall q, get_at q n <> None -> get_at q (update_at f p n) <> None.
Proof.
  intro Hf. revert n. induction p as [|i p IH]; intros n q Hq.
  - destruct q as [|j q]; [discriminate|]. simpl in *. rewrite Hf. exact Hq.
  - destruct n as [tg a x t cs]. destruct q as [|j q]; [discriminate|]. simpl in *.
    rewrite nth_error_map_nth. destruct (Nat.eqb i j) eqn:Hij.
    + destruct (nth_error cs j); simpl; [apply IH, Hq|exact Hq].
    + exact Hq.
Qed.

(** Writing through [update_at] leaves the fields of every other element alone. *)
Lemma read_at_update_other f p n q fl :
  (forall m, children_of (f m) = children_of m) -> q <> p ->
  read_at (update_at f p n) q fl = read_at n q fl.
Proof.
  intros Hf. revert n q. induction p as [|i p IH]; intros n q Hq.
  - destruct q as [|j q]; [congruence|]. rewrite !read_at_cons. simpl. rewrite Hf. reflexivity.
  - destruct n as [tg a x t cs]. destruct q as [|j q]; [reflexivity|].
    rewrite !read_at_cons. simpl. rewrite nth_error_map_nth.
    destruct (Nat.eqb i j) eqn:Hij; [|reflexivity].
    apply Nat.eqb_eq in Hij. subst j.
    destruct (nth_error cs i); simpl; [|reflexivity].
    apply IH. congruence.
Qed.

Lemma list_eqb_spec (a b : pystr) : list_eqb a b = true <-> a = b.
Proof. unfold list_eqb. destruct (list_eq_dec N.eq_dec a b); split; congruence. Qed.

Lemma list_eqb_refl (a : pystr) : list_eqb a a = true.
Proof. apply list_eqb_spec. reflexivity. Qed.

Lemma lookup_set_attr k v a k' :
  lookup k' (set_attr k v a) = if list_eqb k' k then Some v else lookup k' a.
Proof.
  induction a as [|[k0 v0] r IH]; simpl.
  - destruct (list_eqb k' k); reflexivity.
  - destruct (list_eqb k k0) eqn:H1; simpl.
    + apply list_eqb_spec in H1. subst k0. destruct (list_eqb k' k); reflexivity.
    + rewrite IH. destruct (list_eqb k' k) eqn:H2, (list_eqb k' k0) eqn:H3; auto.
      apply list_eqb_spec in H2, H3. subst. rewrite list_eqb_refl in H1. discriminate.
Qed.

Lemma set_slot_children s v m : children_of (set_slot s v m) = children_of m.
Proof.
  destruct m. unfold set_slot. destruct (list_eqb s TEXT), (list_eqb s TAIL); reflexivity.
Qed.

Lemma read_set_slot_same s v m : read_field (set_slot s v m) (slot_field s) = Some v.
Proof.
  destruct m as [tg a x t cs]. unfold set_slot, slot_field.
  destruct (list_eqb s TEXT); [reflexivity|].
  destruct (list_eqb s TAIL); [reflexivity|].
  simpl. rewrite lookup_set_attr.
  replace (list_eqb s s) with true; [reflexivity|].
  symmetry. apply list_eqb_spec. reflexivity.
Qed.

Lemma read_set_slot_other s v m fl :
  fl <> slot_field s -> read_field (set_slot s v m) fl = read_field m fl.
Proof.
  destruct m as [tg a x t cs]. unfold set_slot, slot_field.
  destruct (list_eqb s TEXT); [destruct fl; simpl; congruence|].
  destruct (list_eqb s TAIL); [destruct fl; simpl; congruence|].
  intro Hne. destruct fl as [| |k]; simpl; try reflexivity.
  rewrite lookup_set_attr. destruct (list_eqb k s) eqn:Hk; [|reflexivity].
  apply list_eqb_spec in Hk. subst. congruence.
Qed.

(** One step of the Writer's loop, read back. *)
Lemma read_after_write_same root p s v :
  get_at p root <> None ->
  read_at (update_at (set_slot s v) p root) p (slot_field s) = Some v.
Proof.
  intro H. unfold read_at. rewrite get_at_update_same.
  destruct (get_at p root); [|congruence]. simpl. apply read_set_slot_same.
Qed.

Lemma read_after_write_other root p s v q fl :
  (q, fl) <> (p, slot_field s) ->
  read_at (update_at (set_slot s v) p root) q fl = read_at root q fl.
Proof.
  intro H. destruct (list_eq_dec Nat.eq_dec q p) as [->|Hq].
  - unfold read_at. rewrite get_at_update_same.
    destruct (get_at p root); [|reflexivity]. simpl.
    apply read_set_slot_other. congruence.
  - apply read_at_update_other; [apply set_slot_children|exact Hq].
Qed.

(** ** The Writer's loop *)

Lemma write_fold_frame (l : list (tunit * pystr)) q fl :
  (forall t p s v, In ((t, p, s), v) l -> (p, slot_field s) <> (q, fl)) ->
  forall r, read_at (fold_left write_step l r) q fl = read_at r q fl.
Proof.
  induction l as [|[[[t p] s] v] l IH]; intros H r; [reflexivity|].
  simpl. rewrite IH by (intros; eapply H; right; eassumption).
  apply read_after_write_other. intro E. symmetry in E.
  apply (H t p s v); [left; reflexivity|exact E].
Qed.

Lemma write_fold_defined (l : list (tunit * pystr)) q :
  forall r, get_at q r <> None -> get_at q (fold_left write_step l r) <> None.
Proof.
  induction l as [|[[[t p] s] v] l IH]; intros r H; [exact H|].
  simpl. apply IH. apply update_at_children; [apply set_slot_children|exact H].
Qed.

(** The value a unit writes stays when no later unit writes the same field. *)
Lemma write_fold_last (l : list (tunit * pystr)) k t p s v r :
  nth_error l k = Some ((t, p, s), v) -> get_at p r <> None ->
  (forall j t' p' s' v', k < j -> nth_error l j = Some ((t', p', s'), v') ->
     (p', slot_field s') <> (p, slot_field s)) ->
  read_at (fold_left write_step l r) p (slot_field s) = Some v.
Proof.
  intros Hk Hp Hlater.
  destruct (nth_error_split l k Hk) as [l1 [l2 [-> Hlen]]].
  rewrite fold_left_app. simpl.
  rewrite write_fold_frame.
  - apply read_after_write_same. apply write_fold_defined. exact Hp.
  - intros t' p' s' v' Hin.
    destruct (In_nth_error l2 _ Hin) as [j Hj].
    apply (Hlater (S k + j) t' p' s' v'); [lia|].
    rewrite nth_error_app2 by lia. rewrite <- Hlen.
    replace (S (length l1) + j - length l1) with (S j) by lia. exact Hj.
Qed.

(** ** Shape preservation *)

Lemma map_map_nth {A B} i (g : A -> A) (h : A -> B) (l : list A) :
  (forall c, nth_error l i = Some c -> h (g c) = h c) -> map h (map_nth i g l) = map h l.
Proof.
  revert i. induction l as [|x r IH]; intros [|i] H; simpl; try reflexivity.
  - rewrite (H x eq_refl). reflexivity.
  - f_equal. apply IH. exact H.
Qed.

Lemma shape_update_at f p n :
  (forall m, get_at p n = Some m -> shape (f m) = shape m) ->
  shape (update_at f p n) = shape n.
Proof.
  revert n. induction p as [|i p IH]; intros n H; [apply H; reflexivity|].
  destruct n as [tg a x t cs]. simpl. f_equal.
  apply map_map_nth. intros c Hc. apply IH. intros m Hm.
  apply H. simpl. rewrite Hc. exact Hm.
Qed.

Lemma get_at_same_shape p :
  forall r r0 m0, shape r = shape r0 -> get_at p r0 = Some m0 ->
  exists m, get_at p r = Some m /\ shape m = shape m0.
Proof.
  induction p as [|j p IH]; intros r r0 m0 Hs Hg.
  - injection Hg as <-. exists r. auto.
  - destruct r as [tg a x t cs], r0 as [tg0 a0 x0 t0 cs0].
    simpl in Hs, Hg. injection Hs as _ _ Hcs.
    assert (E : nth_error (map shape cs) j = nth_error (map shape cs0) j) by (rewrite Hcs; reflexivity).
    rewrite !nth_error_map in E.
    destruct (nth_error cs0 j) as [c0|] eqn:Hc0; [|discriminate].
    destruct (nth_error cs j) as [c|] eqn:Hc; [|discriminate].
    injection E as E. simpl. rewrite Hc. exact (IH c c0 m0 E Hg).
Qed.

Lemma set_attr_names k v a : In k (map fst a) -> map fst (set_attr k v a) = map fst a.
Proof.
  induction a as [|[k0 v0] r IH]; simpl; [contradiction|]. intro H.
  destruct (list_eqb k k0) eqn:E; simpl.
  - apply list_eqb_spec in E. subst. reflexivity.
  - f_equal. apply IH. destruct H as [->|H]; [rewrite list_eqb_refl in E; discriminate|exact H].
Qed.

(** A slot that designates the text, the tail, or an existing attribute. *)
Lemma shape_set_slot s v m :
  slot_field s = FText \/ slot_field s = FTail \/ In s (map fst (attrib_of m)) ->
  shape (set_slot s v m) = shape m.
Proof.
  destruct m as [tg a x t cs]. unfold set_slot, slot_field.
  destruct (list_eqb s TEXT); [reflexivity|].
  destruct (list_eqb s TAIL); [reflexivity|].
  intros [H|[H|H]]; try discriminate. simpl in *. rewrite set_attr_names by exact H.
  reflexivity.
Qed.

Lemma slot_field_TEXT : slot_field TEXT = FText.
Proof. reflexivity. Qed.

Lemma slot_field_TAIL : slot_field TAIL = FTail.
Proof. reflexivity. Qed.

Lemma collected_slot_ok root t p s :
  In (t, p, s) (collect_translatable_text root) ->
  exists m, get_at p root = Some m /\
    (slot_field s = FText \/ slot_field s = FTail \/ In s (map fst (attrib_of m))).
Proof.
  rewrite collect_spec. intro Hin.
  destruct (units_spec_in root t p s Hin) as [m [c [Hm [Hc [_ [Hs _]]]]]].
  exists m. split; [exact Hm|]. subst s.
  destruct m as [tg a x tl cs]. simpl in Hc.
  apply in_app_or in Hc as [Hc|Hc].
  { destruct x; simpl in Hc; [|contradiction]. destruct Hc as [<-|[]]. left. reflexivity. }
  apply in_app_or in Hc as [Hc|Hc].
  { destruct tl; simpl in Hc; [|contradiction]. destruct Hc as [<-|[]]. right; left. reflexivity. }
  apply in_map_iff in Hc as [[k v] [<- Hkv]].
  right; right. simpl. apply (in_map fst) in Hkv. exact Hkv.
Qed.

Lemma write_fold_shape root (l : list (tunit * pystr)) :
  (forall t p s v, In ((t, p, s), v) l -> In (t, p, s) (collect_translatable_text root)) ->
  forall r, shape r = shape root -> shape (fold_left write_step l r) = shape root.
Proof.
  induction l as [|[[[t p] s] v] l IH]; intros Hl r Hr; [exact Hr|].
  simpl. apply IH; [intros; eapply Hl; right; eassumption|].
  rewrite <- Hr. apply shape_update_at. intros m Hm.
  destruct (collected_slot_ok root t p s (Hl t p s v (or_introl eq_refl))) as [m0 [Hm0 Hok]].
  destruct (get_at_same_shape p r root m0 Hr Hm0) as [m' [Hm' Hsh]].
  rewrite Hm in Hm'. injection Hm' as <-.
  apply shape_set_slot.
  destruct m as [tg a x tl cs], m0 as [tg0 a0 x0 tl0 cs0]. simpl in Hsh, Hok |- *.
  injection Hsh as _ Ha _. rewrite Ha. exact Hok.
Qed.

Lemma node_count_shape (n1 : node) : forall n2, shape n1 = shape n2 -> node_count n1 = node_count n2.
Proof.
  induction n1 as [tg a x t cs IH] using node_rect'. intros [tg2 a2 x2 t2 cs2] H.
  simpl in H |- *. injection H as _ _ Hcs. f_equal. f_equal.
  revert cs2 Hcs. induction IH as [|c r Hc Hr IHr]; intros [|c2 r2] Hcs; simpl in Hcs;
    try discriminate; [reflexivity|].
  injection Hcs as H1 H2. simpl. rewrite (Hc c2 H1), (IHr r2 H2). reflexivity.
Qed.

Lemma preorder_children_incl cs : forall p i j c x,
  nth_error cs j = Some c -> In x (preorder (p ++ [i + j]) c) -> In x (preorder_children p i cs).
Proof.
  induction cs as [|c0 r IH]; intros p i [|j] c x Hj Hx; simpl in *; try discriminate.
  - injection Hj as ->. rewrite Nat.add_0_r in Hx. apply in_or_app. left. exact Hx.
  - apply in_or_app. right. apply (IH p (S i) j c); [exact Hj|].
    replace (S i + j) with (i + S j) by lia. exact Hx.
Qed.

Lemma preorder_complete (e : node) :
  forall r p n, get_at r e = Some n -> In (p ++ r, n) (preorder p e).
Proof.
  induction e as [tg a x t cs IH] using node_rect'. intros r p n H.
  rewrite preorder_eq. destruct r as [|j r].
  - injection H as <-. left. rewrite app_nil_r. reflexivity.
  - right. simpl in H. destruct (nth_error cs j) as [c|] eqn:Hc; [|discriminate].
    apply (preorder_children_incl cs p 0 j c); [exact Hc|].
    rewrite Forall_forall in IH.
    replace (p ++ j :: r) with ((p ++ [0 + j]) ++ r) by (rewrite <- app_assoc; reflexivity).
    apply (IH c (nth_error_In _ _ Hc)). exact H.
Qed.

Lemma units_spec_complete root p m c :
  get_at p root = Some m -> In c (candidates m) -> included_spec c = true ->
  In (queued c, p, cand_slot c) (units_spec root).
Proof.
  intros Hm Hc Hinc. unfold units_spec. apply in_flat_map.
  exists (p, m). split; [exact (preorder_complete root p [] m Hm)|].
  unfold node_units_spec. apply in_flat_map. exists c. split; [exact Hc|].
  rewrite Hinc. left. reflexivity.
Qed.

Lemma slot_field_not_text_attr s : slot_field s <> FAttr TEXT /\ slot_field s <> FAttr TAIL.
Proof.
  unfold slot_field.
  destruct (list_eqb s TEXT) eqn:E1; [split; discriminate|].
  destruct (list_eqb s TAIL) eqn:E2; [split; discriminate|].
  split; intro H; injection H as ->; [rewrite list_eqb_refl in E1|rewrite list_eqb_refl in E2];
    discriminate.
Qed.

Lemma in_candidates_attr m k v : In (k, v) (attrib_of m) -> In (CAttr k v) (candidates m).
Proof.
  destruct m as [tg a x t cs]. simpl. intro H.
  apply in_or_app. right. apply in_or_app. right.
  apply (in_map (fun '(k0, v0) => CAttr k0 v0)) in H. exact H.
Qed.

(** ** C3: the Writer preserves the document's structure *)

(** C3: writing the collected units back (whatever the translated strings)
    keeps every tag, every attribute name, the order of the children and the
    number of elements, and leaves unchanged every field that no collected
    unit designates. *)
Theorem C3_writer_preserves_structure (root : node) (trs : list pystr) :
  let units := collect_translatable_text root in
  shape (write_translations root units trs) = shape root /\
  node_count (write_translations root units trs) = node_count root /\
  (forall q fl, (forall t p s, In (t, p, s) units -> (p, slot_field s) <> (q, fl)) ->
     read_at (write_translations root units trs) q fl = read_at root q fl).
Proof.
  intro units. unfold write_translations.
  assert (Hsh : shape (fold_left write_step (combine units trs) root) = shape root).
  { apply write_fold_shape; [|reflexivity].
    intros t p s v Hin. exact (in_combine_l _ _ _ _ Hin). }
  split; [exact Hsh|]. split; [apply node_count_shape, Hsh|].
  intros q fl Hq. apply write_fold_frame.
  intros t p s v Hin. apply (Hq t p s). exact (in_combine_l _ _ _ _ Hin).
Qed.

(** ** C10: an attribute named 'text' or 'tail' *)

(** C10: for an element with a collected attribute named 'text' (or 'tail'),
    the unit's slot identifier is the same as the text (tail) sentinel: the
    Writer puts that unit's translation into the element's text (tail), and
    the attribute itself is never written, so it keeps its value in the output. *)
Theorem C10_text_tail_attribute_slot root p m k v :
  get_at p root = Some m -> In (k, v) (attrib_of m) -> (k = TEXT \/ k = TAIL) ->
  included_spec (CAttr k v) = true ->
  In (replace_ellipsis (strip v), p, k) (collect_translatable_text root) /\
  (k = TEXT /\ slot_field k = FText \/ k = TAIL /\ slot_field k = FTail) /\
  (forall t, read_at (update_at (set_slot k t) p root) p (slot_field k) = Some t /\
             read_at (update_at (set_slot k t) p root) p (FAttr k) = read_at root p (FAttr k)) /\
  (forall trs, read_at (write_translations root (collect_translatable_text root) trs) p (FAttr k)
               = read_at root p (FAttr k)).
Proof.
  intros Hm Hkv Hk Hinc.
  assert (Hnot : forall s, slot_field s <> FAttr k).
  { intro s. destruct (slot_field_not_text_attr s). destruct Hk as [->| ->]; assumption. }
  split.
  { rewrite collect_spec. exact (units_spec_complete root p m (CAttr k v) Hm
                                   (in_candidates_attr m k v Hkv) Hinc). }
  split; [destruct Hk as [->| ->]; [left|right]; split; reflexivity|].
  split.
  - intro t. split.
    + apply read_after_write_same. rewrite Hm. discriminate.
    + apply read_after_write_other. intro E. injection E as E. apply (Hnot k). symmetry. exact E.
  - intro trs. unfold write_translations. apply write_fold_frame.
    intros t p' s v' _ E. injection E as _ E. exact (Hnot s E).
Qed.

(** Witness: [<item text="Hello"/>]. *)
Lemma C10_witness :
  let root := Node (s2l "item") [(TEXT, s2l "Hello")] None None [] in
  In (replace_ellipsis (strip (s2l "Hello")), [], TEXT) (collect_translatable_text root) /\
  (TEXT = TEXT /\ slot_field TEXT = FText \/ TEXT = TAIL /\ slot_field TEXT = FTail) /\
  (forall t, read_at (update_at (set_slot TEXT t) [] root) [] (slot_field TEXT) = Some t /\
             read_at (update_at (set_slot TEXT t) [] root) [] (FAttr TEXT) = read_at root [] (FAttr TEXT)) /\
  (forall trs, read_at (write_translations root (collect_translatable_text root) trs) [] (FAttr TEXT)
               = read_at root [] (FAttr TEXT)).
Proof.
  intro root.
  apply (C10_text_tail_attribute_slot root [] (Node (s2l "item") [(TEXT, s2l "Hello")] None None [])
           TEXT (s2l "Hello")).
  - reflexivity.
  - simpl. left. reflexivity.
  - left. reflexivity.
  - reflexivity.
Defined.

(** ** C1: the adapter keeps index correspondence *)

Lemma batch_of_offset bs texts k :
  0 < bs -> k < length texts ->
  k mod bs < length (batch_of bs texts k) /\
  nth (k mod bs) (batch_of bs texts k) [] = nth k texts [].
Proof.
  intros Hbs Hk. unfold batch_of.
  pose proof (Nat.div_mod_eq k bs) as Hdm.
  pose proof (Nat.mod_upper_bound k bs ltac:(lia)) as Hmb.
  split.
  - rewrite slice_length. rewrite Nat.mul_comm in Hdm. lia.
  - rewrite slice_nth by exact Hmb. f_equal. lia.
Qed.

(** C1: with a translator that returns one string per input string, the
    adapter returns as many strings as it was given, and the string at each
    index is the one for the input at that index: the translator's result at
    the same offset of the same batch, or the input itself when that batch
    failed. *)
Theorem C1_adapter_lockstep tr texts bs :
  0 < bs -> (forall b, one_per_input b (tr b)) ->
  exists out ev, batch_translate tr texts bs = Some (out, ev) /\
    length out = length texts /\
    (forall k, k < length texts ->
       nth k out [] = match tr (batch_of bs texts k) with
                      | TRaise => nth k texts []
                      | TList rs => nth (k mod bs) rs []
                      | TSingle r => r
                      end).
Proof.
  intros Hbs Htr.
  destruct (batch_translate_positions tr texts bs Hbs Htr) as [out [ev [Hrun [Hlen [Hnth _]]]]].
  exists out, ev. split; [exact Hrun|]. split; [exact Hlen|].
  intros k Hk. rewrite Hnth by exact Hk.
  destruct (batch_of_offset bs texts k Hbs Hk) as [Hoff Heq].
  specialize (Htr (batch_of bs texts k)).
  destruct (tr (batch_of bs texts k)) as [|rs|r]; simpl in Htr |- *.
  - exact Heq.
  - reflexivity.
  - rewrite Htr in Hoff. replace (k mod bs) with 0 by lia. reflexivity.
Qed.

(** Witness: a translator that appends "!" to each string, batches of 2. *)
Lemma C1_witness :
  exists out ev,
    batch_translate (fun b => TList (map (fun s => s ++ s2l "!") b))
                    [s2l "a"; s2l "b"; s2l "c"] 2 = Some (out, ev) /\
    length out = length [s2l "a"; s2l "b"; s2l "c"] /\
    (forall k, k < length [s2l "a"; s2l "b"; s2l "c"] ->
       nth k out [] =
       match (fun b => TList (map (fun s => s ++ s2l "!") b))
               (batch_of 2 [s2l "a"; s2l "b"; s2l "c"] k) with
       | TRaise => nth k [s2l "a"; s2l "b"; s2l "c"] []
       | TList rs => nth (k mod 2) rs []
       | TSingle r => r
       end).
Proof.
  apply C1_adapter_lockstep.
  - lia.
  - intro b. simpl. apply length_map.
Defined.

(** ** C2: a failed batch falls back to its input strings *)

Lemma nth_error_combine_nth {A B} (l : list A) (l' : list B) k x d :
  length l = length l' -> nth_error l k = Some x ->
  nth_error (combine l l') k = Some (x, nth k l' d).
Proof.
  revert l' k. induction l as [|a r IH]; intros [|b r'] [|k] Hlen Hk; simpl in *;
    try discriminate.
  - congruence.
  - apply IH; [lia|exact Hk].
Qed.

Lemma nth_error_combine_l {A B} (l : list A) (l' : list B) j a b :
  nth_error (combine l l') j = Some (a, b) -> nth_error l j = Some a.
Proof.
  revert l' j. induction l as [|x r IH]; intros [|y r'] [|j] H; simpl in *;
    try discriminate.
  - congruence.
  - eapply IH. exact H.
Qed.

(** The adapter's output at a unit's index: the batch's own string when the
    call raised, otherwise the translator's result at the unit's offset in
    its batch. *)
Lemma batch_translate_at tr texts bs out ev k :
  0 < bs -> (forall b, one_per_input b (tr b)) ->
  batch_translate tr texts bs = Some (out, ev) -> k < length texts ->
  nth k out [] = match tr (batch_of bs texts k) with
                 | TRaise => nth k texts []
                 | TList rs => nth (k mod bs) rs []
                 | TSingle r => r
                 end.
Proof.
  intros Hbs Htr Hrun Hk.
  destruct (batch_translate_positions tr texts bs Hbs Htr) as [out' [ev' [Hrun' [_ [Hnth _]]]]].
  rewrite Hrun in Hrun'. injection Hrun' as <- <-.
  rewrite Hnth by exact Hk.
  destruct (batch_of_offset bs texts k Hbs Hk) as [Hoff Heq].
  specialize (Htr (batch_of bs texts k)).
  destruct (tr (batch_of bs texts k)) as [|rs|r]; simpl in Htr |- *.
  - exact Heq.
  - reflexivity.
  - rewrite Htr in Hoff. replace (k mod bs) with 0 by lia. reflexivity.
Qed.

(** C2 (amended): with a translator that returns one string per input
    string, every batch is sent to the translator, also after a failed one.
    For the unit at index [k], with queued string [t] (the original value
    trimmed, '…' replaced by '...'), the adapter's output at [k] is [t] when
    the call on [k]'s batch raised, and otherwise the translation the call
    returned for [t] (the result at [k]'s offset in the batch). In the written
    document, the field of a unit that no later unit designates again holds
    exactly that value. *)
Theorem C2_failed_batch_fallback tr root bs :
  0 < bs -> (forall b, one_per_input b (tr b)) ->
  let units := collect_translatable_text root in
  let texts := map unit_text units in
  exists out ev, batch_translate tr texts bs = Some (out, ev) /\
    (forall i, In i (py_range (length texts) bs) ->
       In (ETranslate (slice i (i + bs) texts)) ev) /\
    (forall k t p s, nth_error units k = Some (t, p, s) ->
       let value := match tr (batch_of bs texts k) with
                    | TRaise => t
                    | TList rs => nth (k mod bs) rs []
                    | TSingle r => r
                    end in
       nth k out [] = value /\
       (exists n c, get_at p root = Some n /\ In c (candidates n) /\ cand_slot c = s /\
                    t = replace_ellipsis (strip (cand_value c))) /\
       ((forall j t' p' s', k < j -> nth_error units j = Some (t', p', s') ->
           (p', slot_field s') <> (p, slot_field s)) ->
        read_at (write_translations root units out) p (slot_field s) = Some value)).
Proof.
  intros Hbs Htr units texts.
  destruct (batch_translate_positions tr texts bs Hbs Htr)
    as [out [ev [Hrun [Hlen [_ Hcalls]]]]].
  exists out, ev. split; [exact Hrun|]. split; [exact Hcalls|].
  intros k t p s Hk value.
  assert (Hkl : k < length texts).
  { unfold texts. rewrite length_map. apply nth_error_Some. congruence. }
  assert (Htk : nth k texts [] = t).
  { unfold texts.
    replace (nth k (map unit_text units) []) with
      (nth k (map unit_text units) (unit_text ([], [], []))) by reflexivity.
    rewrite List.map_nth, (nth_error_nth _ _ _ Hk). reflexivity. }
  assert (Hval : nth k out [] = value).
  { rewrite (batch_translate_at tr texts bs out ev k Hbs Htr Hrun Hkl).
    unfold value. destruct (tr (batch_of bs texts k)); [exact Htk|reflexivity|reflexivity]. }
  assert (Hin : In (t, p, s) units) by exact (nth_error_In _ _ Hk).
  pose proof Hin as Hin'. unfold units in Hin'. rewrite collect_spec in Hin'.
  destruct (units_spec_in root t p s Hin') as [n [c [Hn [Hc [_ [Hs Ht]]]]]].
  split; [exact Hval|split].
  - exists n, c. auto.
  - intro Hlater. rewrite <- Hval. unfold write_translations.
    apply (write_fold_last _ k t p s); [| rewrite Hn; discriminate |].
    + apply nth_error_combine_nth; [|exact Hk].
      rewrite Hlen. unfold texts. rewrite length_map. reflexivity.
    + intros j t' p' s' v' Hj Hjth.
      exact (Hlater j t' p' s' Hj (nth_error_combine_l _ _ _ _ _ Hjth)).
Qed.

(** Witness: three strings in batches of two, with a translator that appends
    "!" and fails on the second, single-string batch. The written document
    holds the translations "A!" and "B!" and the untranslated "C". *)
Lemma C2_witness :
  let root := Node (s2l "r") [] None None
                [Node (s2l "s") [] (Some (s2l " A ")) None [];
                 Node (s2l "s") [] (Some (s2l "B")) None [];
                 Node (s2l "s") [] (Some (s2l "C")) None []] in
  let units := collect_translatable_text root in
  let texts := map unit_text units in
  (exists out ev, batch_translate tr_bang_fail_single texts 2 = Some (out, ev) /\
    (forall i, In i (py_range (length texts) 2) ->
       In (ETranslate (slice i (i + 2) texts)) ev) /\
    (forall k t p s, nth_error units k = Some (t, p, s) ->
       let value := match tr_bang_fail_single (batch_of 2 texts k) with
                    | TRaise => t
                    | TList rs => nth (k mod 2) rs []
                    | TSingle r => r
                    end in
       nth k out [] = value /\
       (exists n c, get_at p root = Some n /\ In c (candidates n) /\ cand_slot c = s /\
                    t = replace_ellipsis (strip (cand_value c))) /\
       ((forall j t' p' s', k < j -> nth_error units j = Some (t', p', s') ->
           (p', slot_field s') <> (p, slot_field s)) ->
        read_at (write_translations root units out) p (slot_field s) = Some value))) /\
  (exists out ev, batch_translate tr_bang_fail_single texts 2 = Some (out, ev) /\
    map (fun k => read_at (write_translations root units out) [k] FText) [0; 1; 2] =
      [Some (s2l "A!"); Some (s2l "B!"); Some (s2l "C")]).
Proof.
  intros root units texts. split.
  - apply (C2_failed_batch_fallback tr_bang_fail_single root 2); [lia|].
    intro b. unfold one_per_input, tr_bang_fail_single.
    destruct (length b =? 1) eqn:E; [exact I|apply length_map].
  - do 2 eexists. split; [reflexivity|]. vm_compute. reflexivity.
Defined.

(** C2 as stated fails: a unit of a failed batch does not keep its original
    value. With [<resources><string name="hello"> Hi </string></resources>]
    and every translation call raising, the output file's text is "Hi". *)
Lemma C2_counterexample :
  let root := Node (s2l "resources") [] None None
                [Node (s2l "string") [(s2l "name", s2l "hello")] (Some (s2l " Hi ")) None []] in
  let fs := simple_fs [(s2l "strings.xml", root)] in
  let r := translate_xml_to_urdu fs (fun _ => TRaise) (mkDatetime 2026 1 2 3 4 5)
             (s2l "strings.xml") (Some (s2l "out.xml")) in
  exists root', fs_lookup (run_fs r) (s2l "out.xml") = Some (EFile (FDoc root')) /\
    read_at root' [0] FText = Some (s2l "Hi") /\
    read_at root [0] FText = Some (s2l " Hi ") /\
    read_at root' [0] FText <> read_at root [0] FText.
Proof.
  intros root fs r. eexists. split; [vm_compute; reflexivity|].
  split; [vm_compute; reflexivity|]. split; [vm_compute; reflexivity|].
  vm_compute. discriminate.
Qed.

(** ** C8: the default output name *)

Lemma zpad2_digits n : n < 100 -> digits_of_len 2 (zpad 2 n) = true.
Proof.
  intro H.
  assert (Hall : forallb (fun m => digits_of_len 2 (zpad 2 m)) (seq 0 100) = true)
    by (vm_compute; reflexivity).
  rewrite forallb_forall in Hall. apply Hall, in_seq. lia.
Qed.

Lemma year_digits y : 1000 <= y -> y <= 9999 -> digits_of_len 4 (zpad 0 y) = true.
Proof.
  intros H1 H2.
  assert (Hall : forallb (fun m => digits_of_len 4 (zpad 0 m)) (seq 1000 9000) = true)
    by (vm_compute; reflexivity).
  rewrite forallb_forall in Hall. apply Hall, in_seq.
  split; [exact H1|]. change (1000 + 9000) with (S 9999). apply Nat.lt_succ_r, H2.
Qed.

Ltac explode_digits H :=
  unfold digits_of_len in H; apply andb_true_iff in H as [?Hlen ?Hdig];
  apply Nat.eqb_eq in Hlen.

Lemma stamp_shape a b c d e f :
  digits_of_len 4 a = true -> digits_of_len 2 b = true -> digits_of_len 2 c = true ->
  digits_of_len 2 d = true -> digits_of_len 2 e = true -> digits_of_len 2 f = true ->
  is_stamp (a ++ b ++ c ++ s2l "_" ++ d ++ e ++ f) = true /\
  length (a ++ b ++ c ++ s2l "_" ++ d ++ e ++ f) = 15.
Proof.
  intros Ha Hb Hc Hd He Hf.
  explode_digits Ha. explode_digits Hb. explode_digits Hc.
  explode_digits Hd. explode_digits He. explode_digits Hf.
  destruct a as [|a1 [|a2 [|a3 [|a4 [|]]]]]; try discriminate.
  destruct b as [|b1 [|b2 [|]]]; try discriminate.
  destruct c as [|c1 [|c2 [|]]]; try discriminate.
  destruct d as [|d1 [|d2 [|]]]; try discriminate.
  destruct e as [|e1 [|e2 [|]]]; try discriminate.
  destruct f as [|f1 [|f2 [|]]]; try discriminate.
  simpl in *. split; [|reflexivity].
  unfold is_stamp. simpl. rewrite !andb_true_iff in *. intuition.
Qed.

Lemma stamp_ok now : valid_now now ->
  is_stamp (strftime_stamp now) = true /\ length (strftime_stamp now) = 15.
Proof.
  intros (Hy & Hmo & Hd & Hh & Hmi & Hs). unfold strftime_stamp.
  apply stamp_shape; [apply year_digits; lia|apply zpad2_digits; lia ..].
Qed.

Lemma rfind_from_app c l1 l2 i best :
  rfind_from c (l1 ++ l2) i best =
  rfind_from c l2 (i + Z.of_nat (length l1))%Z (rfind_from c l1 i best).
Proof.
  revert i best. induction l1 as [|x r IH]; intros i best; simpl.
  - rewrite Z.add_0_r. reflexivity.
  - rewrite IH, Zpos_P_of_succ_nat. f_equal. lia.
Qed.

Lemma rfind_from_absent c l i best :
  existsb (N.eqb c) l = false -> rfind_from c l i best = best.
Proof.
  revert i best. induction l as [|x r IH]; intros i best H; simpl in *; [reflexivity|].
  apply orb_false_iff in H as [H1 H2]. rewrite N.eqb_sym, H1. apply IH, H2.
Qed.

Lemma skipn_cons_nth (b : pystr) k d :
  k < length b -> skipn k b = nth k b d :: skipn (S k) b.
Proof.
  revert k. induction b as [|x r IH]; intros [|k] H; simpl in *; try lia; [reflexivity|].
  apply IH. lia.
Qed.

Lemma splitext_loop_spec b r fuel : forall k,
  length b - k <= fuel ->
  splitext_loop fuel (b ++ r) (Z.of_nat k) (Z.of_nat (length b)) =
  existsb (fun c => negb (c =? DOT)%N) (skipn k b).
Proof.
  induction fuel as [|f IH]; intros k Hk.
  - rewrite skipn_all2 by lia. reflexivity.
  - simpl. destruct (Z.of_nat k <? Z.of_nat (length b))%Z eqn:Hlt.
    + apply Z.ltb_lt in Hlt. rewrite Nat2Z.id, app_nth1 by lia.
      rewrite (skipn_cons_nth b k DOT) by lia. simpl.
      destruct (nth k b DOT =? DOT)%N; simpl; [|reflexivity].
      replace (Z.of_nat k + 1)%Z with (Z.of_nat (S k)) by lia. apply IH. lia.
    + apply Z.ltb_ge in Hlt. rewrite skipn_all2 by lia. reflexivity.
Qed.

Lemma last_occurrence c (l : pystr) :
  existsb (N.eqb c) l = true ->
  exists a b, l = a ++ c :: b /\ existsb (N.eqb c) b = false.
Proof.
  induction l as [|x r IH]; simpl; [discriminate|]. intro H.
  destruct (existsb (N.eqb c) r) eqn:Er.
  - destruct (IH eq_refl) as [a [b [-> Hb]]]. exists (x :: a), b. split; [reflexivity|exact Hb].
  - rewrite orb_false_r in H. apply N.eqb_eq in H. subst x. exists [], r. split; [reflexivity|exact Er].
Qed.

Lemma rfind_last c a b :
  existsb (N.eqb c) b = false -> rfind c (a ++ c :: b) = Z.of_nat (length a).
Proof.
  intro Hb. unfold rfind. rewrite rfind_from_app. simpl. rewrite N.eqb_refl.
  apply rfind_from_absent, Hb.
Qed.

Lemma rfind_from_ge_best c l : forall i best, (best <= i)%Z -> (best <= rfind_from c l i best)%Z.
Proof.
  induction l as [|x r IH]; intros i best H; simpl; [lia|].
  destruct (x =? c)%N.
  - pose proof (IH (i + 1)%Z i ltac:(lia)). lia.
  - apply IH. lia.
Qed.

Lemma rfind_from_ge_pos c l : forall i best k,
  (best <= i)%Z -> nth_error l k = Some c -> (i + Z.of_nat k <= rfind_from c l i best)%Z.
Proof.
  induction l as [|x r IH]; intros i best k Hb Hk; [destruct k; discriminate|].
  destruct k as [|k]; simpl in Hk |- *.
  - injection Hk as ->. rewrite N.eqb_refl.
    pose proof (rfind_from_ge_best c r (i + 1)%Z i ltac:(lia)). lia.
  - pose proof (IH (i + 1)%Z (if (x =? c)%N then i else best) k
                  ltac:(destruct (x =? c)%N; lia) Hk). lia.
Qed.

Lemma firstn_length_app (pre r : pystr) : firstn (length pre) (pre ++ r) = pre.
Proof. induction pre as [|x l IH]; simpl; [reflexivity|]. rewrite IH. reflexivity. Qed.

Lemma skipn_length_app (pre r : pystr) k : skipn (length pre + k) (pre ++ r) = skipn k r.
Proof. induction pre as [|x l IH]; simpl; [reflexivity|]. exact IH. Qed.

Lemma skipn_length_app0 (pre r : pystr) : skipn (length pre) (pre ++ r) = r.
Proof. rewrite <- (Nat.add_0_r (length pre)). apply skipn_length_app. Qed.

Lemma matches_name_intro pre st :
  length st = 15 -> matches_name pre (pre ++ st ++ s2l ".xml") = is_stamp st.
Proof.
  intro Hst. unfold matches_name.
  set (x := s2l ".xml").
  replace (length (pre ++ st ++ x) =? length pre + 19) with true
    by (symmetry; apply Nat.eqb_eq; rewrite !length_app, Hst; reflexivity).
  rewrite firstn_length_app, list_eqb_refl, skipn_length_app0.
  replace (firstn 15 (st ++ x)) with st
    by (rewrite <- Hst; symmetry; apply firstn_length_app).
  replace (skipn (length pre + 15) (pre ++ st ++ x)) with x
    by (rewrite skipn_length_app, <- Hst; symmetry; apply skipn_length_app0).
  rewrite list_eqb_refl, andb_true_r. reflexivity.
Qed.

Lemma rfind_from_lt c l : forall i best,
  (best < i)%Z -> (rfind_from c l i best < i + Z.of_nat (length l))%Z.
Proof.
  induction l as [|x r IH]; intros i best H; simpl; [lia|].
  pose proof (IH (i + 1)%Z (if (x =? c)%N then i else best)
                ltac:(destruct (x =? c)%N; lia)). lia.
Qed.

Lemma lower_char_cases c :
  lower_char c = c \/ (lower_char c = c + 32 /\ 65 <= c <= 90)%N.
Proof.
  unfold lower_char. destruct ((65 <=? c) && (c <=? 90))%N eqn:E; [right|left; reflexivity].
  apply andb_true_iff in E as [E1 E2]. apply N.leb_le in E1, E2. split; [reflexivity|lia].
Qed.

(** An input accepted by [main]'s check ends in '.', then three characters
    that are neither '.' nor '/'. *)
Lemma lower_char_not_sep c l :
  lower_char c = l -> l <> DOT -> l <> SLASH -> (DOT =? c)%N = false /\ (SLASH =? c)%N = false.
Proof.
  intros H Hd Hs. unfold DOT, SLASH in *.
  destruct (lower_char_cases c) as [E|[E R]]; rewrite E in H; subst l;
    split; apply N.eqb_neq; lia.
Qed.

Lemma xml_suffix_shape suf :
  lower suf = s2l ".xml" ->
  exists e, suf = DOT :: e /\ existsb (N.eqb DOT) e = false /\
            existsb (N.eqb SLASH) (DOT :: e) = false.
Proof.
  intro H. destruct suf as [|c0 [|c1 [|c2 [|c3 [|]]]]]; try discriminate.
  cbn in H. injection H as H0 H1 H2 H3.
  assert (Hc0 : c0 = DOT).
  { destruct (lower_char_cases c0) as [E|[E R]]; rewrite E in H0; unfold DOT; lia. }
  subst c0. exists [c1; c2; c3].
  destruct (lower_char_not_sep c1 _ H1) as [D1 S1]; try (unfold DOT, SLASH; lia).
  destruct (lower_char_not_sep c2 _ H2) as [D2 S2]; try (unfold DOT, SLASH; lia).
  destruct (lower_char_not_sep c3 _ H3) as [D3 S3]; try (unfold DOT, SLASH; lia).
  split; [reflexivity|]. cbn [existsb]. rewrite D1, D2, D3, S1, S2, S3. split; reflexivity.
Qed.

Lemma splitext_dot_ext pre e :
  existsb (N.eqb DOT) e = false -> existsb (N.eqb SLASH) (DOT :: e) = false ->
  splitext (pre ++ DOT :: e) =
    if existsb (fun c => negb (c =? DOT)%N) (snd (path_split pre))
    then (pre, DOT :: e) else (pre ++ DOT :: e, []).
Proof.
  intros Hdot Hslash. unfold splitext.
  assert (Hsep : rfind SLASH (pre ++ DOT :: e) = rfind SLASH pre).
  { unfold rfind. rewrite rfind_from_app. apply rfind_from_absent, Hslash. }
  rewrite Hsep, rfind_last by exact Hdot.
  pose proof (rfind_from_ge_best SLASH pre 0%Z (-1)%Z ltac:(lia)) as Hge.
  pose proof (rfind_from_lt SLASH pre 0%Z (-1)%Z ltac:(lia)) as Hlt.
  unfold rfind in *. set (sep := rfind_from SLASH pre 0 (-1)) in *.
  replace (sep <? Z.of_nat (length pre))%Z with true by (symmetry; apply Z.ltb_lt; lia).
  set (i := Z.to_nat (sep + 1)).
  replace (sep + 1)%Z with (Z.of_nat i) by (unfold i; lia).
  rewrite splitext_loop_spec by (rewrite length_app; lia).
  unfold path_split, rfind. fold sep. fold i. cbn [snd].
  destruct (existsb _ (skipn i pre)); [|reflexivity].
  rewrite Nat2Z.id, firstn_length_app, skipn_length_app0. reflexivity.
Qed.

(** C8: without an explicit output path, the output path is the input path
    without its extension, then "_urdu_" (the language tag), a
    YYYYMMDD_HHMMSS timestamp and ".xml". This holds for every input path
    [main] accepts ([pre] followed by ".xml" in any letter case), with or
    without directories; only a file name made of dots before the extension
    (such as '.xml') has no extension for [os.path.splitext], and then the
    whole input path is kept before the suffix. So 'strings.xml' gives
    'strings_urdu_YYYYMMDD_HHMMSS.xml'. *)
Theorem C8_default_output_name pre suf now :
  valid_now now -> lower suf = s2l ".xml" ->
  is_stamp (strftime_stamp now) = true /\
  default_output_file (pre ++ suf) now =
    (if existsb (fun c => negb (c =? DOT)%N) (snd (path_split pre)) then pre else pre ++ suf) ++
    s2l "_urdu_" ++ strftime_stamp now ++ s2l ".xml" /\
  matches_name (s2l "strings_urdu_") (default_output_file (s2l "strings.xml") now) = true.
Proof.
  intros Hnow Hsuf.
  destruct (stamp_ok now Hnow) as [Hst Hlen].
  split; [exact Hst|split].
  - destruct (xml_suffix_shape suf Hsuf) as [e [-> [Hdot Hslash]]].
    unfold default_output_file. rewrite splitext_dot_ext by assumption.
    destruct (existsb (fun c => negb (c =? DOT)%N) (snd (path_split pre))); reflexivity.
  - unfold default_output_file.
    replace (splitext (s2l "strings.xml")) with (s2l "strings", s2l ".xml")
      by (vm_compute; reflexivity).
    change (fst (s2l "strings", s2l ".xml") ++ s2l "_urdu_" ++ strftime_stamp now ++ s2l ".xml")
      with (s2l "strings_urdu_" ++ strftime_stamp now ++ s2l ".xml").
    rewrite matches_name_intro by exact Hlen. exact Hst.
Qed.

(** Witness: 'res/strings.XML' at 2026-10-17 09:30:00. *)
Lemma C8_witness :
  (valid_now (mkDatetime 2026 10 17 9 30 0) /\ lower (s2l ".XML") = s2l ".xml") /\
  (is_stamp (strftime_stamp (mkDatetime 2026 10 17 9 30 0)) = true /\
   default_output_file (s2l "res/strings" ++ s2l ".XML") (mkDatetime 2026 10 17 9 30 0) =
     (if existsb (fun c => negb (c =? DOT)%N) (snd (path_split (s2l "res/strings")))
      then s2l "res/strings" else s2l "res/strings" ++ s2l ".XML") ++
     s2l "_urdu_" ++ strftime_stamp (mkDatetime 2026 10 17 9 30 0) ++ s2l ".xml" /\
   matches_name (s2l "strings_urdu_")
     (default_output_file (s2l "strings.xml") (mkDatetime 2026 10 17 9 30 0)) = true).
Proof.
  assert (Hnow : valid_now (mkDatetime 2026 10 17 9 30 0)).
  { unfold valid_now. simpl.
    repeat split; first [apply Nat.leb_le | apply Nat.ltb_lt]; vm_compute; reflexivity. }
  split; [split; [exact Hnow|vm_compute; reflexivity]|].
  apply C8_default_output_name; [exact Hnow|vm_compute; reflexivity].
Defined.

(** ** C6: the pause between batches *)

(** C6 fails on the code: [time.sleep(1)] sits inside the [try] block after
    the success print, so a failed batch is followed by no pause. With the
    default batch size and one string whose translation raises, the run makes
    the call and prints the error, and never sleeps; with batches of one, the
    second batch's call follows the failed first one at once. *)
Lemma C6_no_pause_after_failed_batch :
  batch_translate (fun _ => TRaise) [s2l "Hello"] DEFAULT_BATCH_SIZE =
    Some ([s2l "Hello"], [ETranslate [s2l "Hello"]; EPrintErr 1]) /\
  batch_translate (fun b => if list_eqb (concat b) (s2l "Hello") then TRaise else TList b)
                  [s2l "Hello"; s2l "World"] 1 =
    Some ([s2l "Hello"; s2l "World"],
          [ETranslate [s2l "Hello"]; EPrintErr 1;
           ETranslate [s2l "World"]; EPrintOk 2 2; ESleep 1]).
Proof. split; vm_compute; reflexivity. Qed.

(** ** C7: no translatable text *)

(** C7 (amended): when the Collector finds nothing in the input document,
    [translate_xml_to_urdu] prints "No translatable text found in the XML
    file.", calls no translator and returns the output path without error
    (lines 104-106), before the save at lines 127-141: no output file or
    directory is created and the file system is left as it was. *)
Theorem C7_empty_collection_short_circuit fs tr now input_file output_file root :
  fs_lookup fs input_file = Some (EFile (FDoc root)) -> collect_translatable_text root = [] ->
  let r := translate_xml_to_urdu fs tr now input_file output_file in
  run_fs r = fs /\ run_trace r = [] /\
  run_status r = Returned (output_path input_file output_file now) /\
  run_log r =
    match output_file with
    | None => [MWillSaveTo (output_path input_file output_file now)]
    | Some _ => []
    end ++ [MCollecting; MNoText].
Proof.
  intros Hin Hnone r. unfold r, translate_xml_to_urdu, output_path.
  destruct output_file as [o|]; rewrite Hin, Hnone; simpl;
    (split; [reflexivity|split; [reflexivity|split; reflexivity]]).
Qed.

(** Witness: [<resources><item name="x"/></resources>] in 'strings.xml'. *)
Lemma C7_witness :
  let root := Node (s2l "resources") [] None None
                [Node (s2l "item") [(s2l "name", s2l "x")] None None []] in
  let fs := simple_fs [(s2l "strings.xml", root)] in
  (fs_lookup fs (s2l "strings.xml") = Some (EFile (FDoc root)) /\
   collect_translatable_text root = []) /\
  (let r := translate_xml_to_urdu fs (fun b => TList b) (mkDatetime 2026 10 17 9 30 0)
              (s2l "strings.xml") (Some (s2l "out.xml")) in
   run_fs r = fs /\ run_trace r = [] /\
   run_status r = Returned (output_path (s2l "strings.xml") (Some (s2l "out.xml"))
                              (mkDatetime 2026 10 17 9 30 0)) /\
   run_log r =
     match Some (s2l "out.xml") with
     | None => [MWillSaveTo (output_path (s2l "strings.xml") (Some (s2l "out.xml"))
                               (mkDatetime 2026 10 17 9 30 0))]
     | Some _ => []
     end ++ [MCollecting; MNoText]).
Proof.
  intros root fs. split; [split; vm_compute; reflexivity|].
  apply (C7_empty_collection_short_circuit fs (fun b => TList b) (mkDatetime 2026 10 17 9 30 0)
           (s2l "strings.xml") (Some (s2l "out.xml")) root); vm_compute; reflexivity.
Defined.

(** C7 as stated fails: with nothing to translate no output file is emitted.
    For [<resources><item name="x"/></resources>] in 'strings.xml' and output
    'out.xml', the run reports that nothing was found and returns 'out.xml',
    but 'out.xml' does not exist afterwards. *)
Lemma C7_counterexample :
  let root := Node (s2l "resources") [] None None
                [Node (s2l "item") [(s2l "name", s2l "x")] None None []] in
  let fs := simple_fs [(s2l "strings.xml", root)] in
  let r := translate_xml_to_urdu fs (fun b => TList b) (mkDatetime 2026 10 17 9 30 0)
             (s2l "strings.xml") (Some (s2l "out.xml")) in
  fs_lookup (run_fs r) (s2l "out.xml") = None /\
  run_status r = Returned (s2l "out.xml") /\
  run_log r = [MCollecting; MNoText].
Proof. vm_compute. split; [reflexivity|split; reflexivity]. Qed.

(** ** C9: argument checks of [main] *)

(** C9: [main] exits with status 1 after one message, and runs nothing, when
    no input path is given (usage), when the input path does not exist, and
    when the input path does not end in '.xml' ignoring case. *)
Theorem C9_main_argument_errors (argv : list pystr) (exists_ : pystr -> bool) :
  (length argv < 2 -> main argv exists_ = MainExit 1 [MUsage]) /\
  (2 <= length argv -> exists_ (nth 1 argv []) = false ->
     main argv exists_ = MainExit 1 [MNotFound (nth 1 argv [])]) /\
  (2 <= length argv -> endswith (lower (nth 1 argv [])) (s2l ".xml") = false ->
     exists m, main argv exists_ = MainExit 1 [m]).
Proof.
  unfold main. split; [|split].
  - intro H. apply Nat.ltb_lt in H. rewrite H. reflexivity.
  - intros H Hex. apply Nat.ltb_ge in H. rewrite H, Hex. reflexivity.
  - intros H Hxml. apply Nat.ltb_ge in H. rewrite H, Hxml.
    destruct (exists_ (nth 1 argv [])); simpl; eexists; reflexivity.
Qed.

(** * Further properties of the script *)

(** ** [clean_text] *)

Lemma replace_ellipsis_app l1 l2 :
  replace_ellipsis (l1 ++ l2) = replace_ellipsis l1 ++ replace_ellipsis l2.
Proof. unfold replace_ellipsis. apply flat_map_app. Qed.

Lemma replace_ellipsis_cons c r :
  replace_ellipsis (c :: r) =
  (if (c =? ELLIPSIS)%N then [DOT; DOT; DOT] else [c]) ++ replace_ellipsis r.
Proof. reflexivity. Qed.

Lemma contains_cons ch c r : contains ch (c :: r) = (ch =? c)%N || contains ch r.
Proof. reflexivity. Qed.

Lemma contains_app ch l1 l2 : contains ch (l1 ++ l2) = contains ch l1 || contains ch l2.
Proof. unfold contains. apply existsb_app. Qed.

Lemma replace_ellipsis_id s : contains ELLIPSIS s = false -> replace_ellipsis s = s.
Proof.
  induction s as [|c r IH]; intro H; [reflexivity|].
  rewrite contains_cons in H. apply orb_false_iff in H as [H1 H2].
  rewrite replace_ellipsis_cons, N.eqb_sym, H1, IH by exact H2. reflexivity.
Qed.

Lemma replace_ellipsis_contains ch s :
  ch <> ELLIPSIS -> ch <> DOT -> contains ch (replace_ellipsis s) = contains ch s.
Proof.
  intros H1 H2. induction s as [|c r IH]; [reflexivity|].
  rewrite replace_ellipsis_cons, contains_app, contains_cons, IH.
  destruct (c =? ELLIPSIS)%N eqn:E.
  - apply N.eqb_eq in E. subst c.
    rewrite !contains_cons.
    replace (ch =? DOT)%N with false by (symmetry; apply N.eqb_neq; exact H2).
    replace (ch =? ELLIPSIS)%N with false by (symmetry; apply N.eqb_neq; exact H1).
    reflexivity.
  - rewrite contains_cons. unfold contains at 1. cbn [existsb]. rewrite orb_false_r.
    reflexivity.
Qed.

Lemma replace_ellipsis_no_ellipsis s : contains ELLIPSIS (replace_ellipsis s) = false.
Proof.
  induction s as [|c r IH]; [reflexivity|].
  rewrite replace_ellipsis_cons, contains_app, IH, orb_false_r.
  destruct (c =? ELLIPSIS)%N eqn:E; [reflexivity|].
  rewrite contains_cons, N.eqb_sym, E. reflexivity.
Qed.

Lemma replace_ellipsis_length s :
  length (replace_ellipsis s) = length s + 2 * count_occ N.eq_dec s ELLIPSIS.
Proof.
  induction s as [|c r IH]; [reflexivity|].
  rewrite replace_ellipsis_cons, length_app, IH. cbn [count_occ length].
  destruct (N.eq_dec c ELLIPSIS) as [->|Hne].
  - rewrite N.eqb_refl. cbn [length]. lia.
  - replace (c =? ELLIPSIS)%N with false by (symmetry; apply N.eqb_neq; exact Hne).
    cbn [length]. lia.
Qed.

(** X1: [clean_text] leaves no '…' in its result, is idempotent, and makes
    the string two characters longer per '…' it replaced. *)
Theorem clean_text_normal_form s :
  contains ELLIPSIS (clean_text s) = false /\
  clean_text (clean_text s) = clean_text s /\
  length (clean_text s) = length s + 2 * count_occ N.eq_dec s ELLIPSIS.
Proof.
  rewrite !clean_text_replace.
  pose proof (replace_ellipsis_no_ellipsis s) as H.
  split; [exact H|]. split; [apply replace_ellipsis_id, H|].
  apply replace_ellipsis_length.
Qed.

(** X2: [clean_text] returns its argument unchanged exactly when the
    argument contains no '…'. *)
Theorem clean_text_unchanged_iff s : clean_text s = s <-> contains ELLIPSIS s = false.
Proof.
  rewrite clean_text_replace. split.
  - intro H. destruct (contains ELLIPSIS s) eqn:E; [|reflexivity].
    exfalso. unfold contains in E. apply existsb_exists in E as [c [Hc Ec]].
    apply N.eqb_eq in Ec. subst c.
    apply (f_equal (@length N)) in H. rewrite replace_ellipsis_length in H.
    apply (count_occ_In N.eq_dec) in Hc. lia.
  - apply replace_ellipsis_id.
Qed.

(** ** The strings the Collector queues *)

Lemma in_lstrip x s : In x (lstrip s) -> In x s.
Proof.
  induction s as [|c r IH]; simpl; [auto|].
  destruct (is_space c); simpl; intuition.
Qed.

Lemma in_strip x s : In x (strip s) -> In x s.
Proof.
  unfold strip. intro H. apply in_rev in H. apply in_lstrip, in_rev, in_lstrip in H. exact H.
Qed.

Lemma lstrip_head s : forall c r, lstrip s = c :: r -> is_space c = false.
Proof.
  induction s as [|x s IH]; intros c r H; simpl in H; [discriminate|].
  destruct (is_space x) eqn:E; [exact (IH c r H)|]. injection H as <- _. exact E.
Qed.

Lemma lstrip_app_nonspace l c :
  is_space c = false -> lstrip (l ++ [c]) = lstrip l ++ [c].
Proof.
  intro Hc. induction l as [|x r IH]; simpl.
  - rewrite Hc. reflexivity.
  - destruct (is_space x); [exact IH|reflexivity].
Qed.

Lemma strip_head s : forall c r, strip s = c :: r -> is_space c = false.
Proof.
  unfold strip. destruct (lstrip s) as [|x l] eqn:E; [discriminate|].
  pose proof (lstrip_head s x l E) as Hx.
  simpl. rewrite lstrip_app_nonspace, rev_app_distr by exact Hx.
  intros c r H. injection H as <- _. exact Hx.
Qed.

Lemma strip_last s : forall c r, rev (strip s) = c :: r -> is_space c = false.
Proof. unfold strip. rewrite rev_involutive. apply lstrip_head. Qed.

Lemma contains_strip ch s : contains ch s = false -> contains ch (strip s) = false.
Proof.
  unfold contains. intro H. destruct (existsb (N.eqb ch) (strip s)) eqn:E; [|reflexivity].
  apply existsb_exists in E as [x [Hx Ex]]. rewrite <- H. symmetry. apply existsb_exists.
  exists x. split; [apply in_strip, Hx|exact Ex].
Qed.

Lemma rev_replace_ellipsis l : rev (replace_ellipsis l) = replace_ellipsis (rev l).
Proof.
  induction l as [|c r IH]; [reflexivity|].
  rewrite replace_ellipsis_cons, rev_app_distr, IH. cbn [rev].
  rewrite replace_ellipsis_app. f_equal. rewrite replace_ellipsis_cons.
  destruct (c =? ELLIPSIS)%N; reflexivity.
Qed.

Lemma replace_ellipsis_head c r :
  is_space c = false -> is_space (hd DOT (replace_ellipsis (c :: r))) = false.
Proof.
  intro Hc. rewrite replace_ellipsis_cons. destruct (c =? ELLIPSIS)%N; [reflexivity|exact Hc].
Qed.

(** X3: every string the Collector queues is non-empty, contains neither '%'
    nor '…', and neither starts nor ends with whitespace. *)
Theorem collected_text_well_formed root q p s :
  In (q, p, s) (collect_translatable_text root) ->
  q <> [] /\ contains PERCENT q = false /\ contains ELLIPSIS q = false /\
  is_space (hd DOT q) = false /\ is_space (hd DOT (rev q)) = false.
Proof.
  rewrite collect_spec. intro Hin.
  destruct (units_spec_in root q p s Hin) as [n [c [_ [_ [Hinc [_ Hq]]]]]].
  unfold queued in Hq. subst q.
  unfold included_spec in Hinc. apply andb_true_iff in Hinc as [Hinc _].
  apply andb_true_iff in Hinc as [Hne Hpct]. apply negb_true_iff in Hpct.
  set (v := cand_value c) in *.
  destruct (strip v) as [|x r] eqn:Hs; [discriminate|].
  split; [rewrite replace_ellipsis_cons; destruct (x =? ELLIPSIS)%N; discriminate|].
  split.
  { rewrite replace_ellipsis_contains by (unfold PERCENT, ELLIPSIS, DOT; lia).
    rewrite <- Hs. apply contains_strip, Hpct. }
  split; [apply replace_ellipsis_no_ellipsis|].
  split; [apply replace_ellipsis_head, (strip_head v x r Hs)|].
  rewrite rev_replace_ellipsis.
  destruct (rev (x :: r)) as [|y t] eqn:Hr; [apply (f_equal (@length N)) in Hr; simpl in Hr;
                                             rewrite length_app in Hr; simpl in Hr; lia|].
  apply replace_ellipsis_head. rewrite <- Hs in Hr. exact (strip_last v y t Hr).
Qed.

(** X4: no collected unit's slot identifier is 'name', 'id' or 'identifier',
    so the Writer never writes those attributes. *)
Theorem collected_slot_not_identifier root q p s :
  In (q, p, s) (collect_translatable_text root) ->
  existsb (list_eqb s) excluded_attrs = false.
Proof.
  rewrite collect_spec. intro Hin.
  destruct (units_spec_in root q p s Hin) as [n [c [_ [_ [Hinc [Hs _]]]]]].
  subst s. destruct c as [t|t|k v]; [reflexivity|reflexivity|].
  unfold included_spec in Hinc. apply andb_true_iff in Hinc as [_ H].
  apply negb_true_iff in H. exact H.
Qed.

(** Witness: [<p title=" Hi "/>] queues "Hi" for its [title] attribute. *)
Lemma collected_text_well_formed_witness :
  let root := Node (s2l "p") [(s2l "title", s2l " Hi ")] None None [] in
  In (s2l "Hi", [], s2l "title") (collect_translatable_text root) /\
  (s2l "Hi" <> [] /\ contains PERCENT (s2l "Hi") = false /\
   contains ELLIPSIS (s2l "Hi") = false /\
   is_space (hd DOT (s2l "Hi")) = false /\ is_space (hd DOT (rev (s2l "Hi"))) = false).
Proof.
  intro root. split.
  - vm_compute. auto.
  - apply (collected_text_well_formed root (s2l "Hi") [] (s2l "title")). vm_compute. auto.
Defined.

(** Witness: the same element; its [title] slot is not an identifier. *)
Lemma collected_slot_not_identifier_witness :
  let root := Node (s2l "p") [(s2l "title", s2l " Hi ")] None None [] in
  In (s2l "Hi", [], s2l "title") (collect_translatable_text root) /\
  existsb (list_eqb (s2l "title")) excluded_attrs = false.
Proof.
  intro root. split.
  - vm_compute. auto.
  - apply (collected_slot_not_identifier root (s2l "Hi") [] (s2l "title")). vm_compute. auto.
Defined.

(** ** The adapter's batches and trace *)

Lemma batch_fold_snd tr texts bs l acc :
  snd (fold_left (batch_step tr texts bs) l acc) =
  snd acc ++ flat_map (step_events tr texts bs) l.
Proof.
  revert acc. induction l as [|i l IH]; intros [o e]; simpl.
  - rewrite app_nil_r. reflexivity.
  - rewrite IH. unfold batch_step, step_events. simpl.
    destruct (tr (slice i (i + bs) texts)); simpl; rewrite <- app_assoc; reflexivity.
Qed.

Lemma translate_calls_app a b :
  translate_calls (a ++ b) = translate_calls a ++ translate_calls b.
Proof. induction a as [|[] a IH]; simpl; rewrite ?IH; reflexivity. Qed.

Lemma sleep_count_app a b : sleep_count (a ++ b) = sleep_count a + sleep_count b.
Proof. induction a as [|[] a IH]; simpl; rewrite ?IH; reflexivity. Qed.

Lemma translate_calls_steps tr texts bs l :
  translate_calls (flat_map (step_events tr texts bs) l) =
  map (fun i => slice i (i + bs) texts) l.
Proof.
  induction l as [|i l IH]; [reflexivity|].
  cbn [flat_map]. rewrite translate_calls_app, IH. unfold step_events.
  destruct (raised _); reflexivity.
Qed.

Lemma sleep_count_steps tr texts bs l :
  sleep_count (flat_map (step_events tr texts bs) l) =
  length (filter (fun b => negb (raised (tr b))) (map (fun i => slice i (i + bs) texts) l)).
Proof.
  induction l as [|i l IH]; [reflexivity|].
  cbn [flat_map]. rewrite sleep_count_app, IH. unfold step_events. simpl map.
  cbn [filter]. destruct (raised _); reflexivity.
Qed.

(** The adapter's result in terms of its batches. *)
Lemma batch_translate_batches tr texts bs out ev :
  batch_translate tr texts bs = Some (out, ev) ->
  out = flat_map (fun b => batch_output b (tr b)) (batches texts bs) /\
  ev = flat_map (step_events tr texts bs) (py_range (length texts) bs).
Proof.
  unfold batch_translate. destruct (bs =? 0); [discriminate|].
  intro H. injection H as Hf. 
  set (F := fold_left (batch_step tr texts bs) (py_range (length texts) bs) ([], [])) in *.
  assert (Ho : out = fst F) by (rewrite Hf; reflexivity).
  assert (He : ev = snd F) by (rewrite Hf; reflexivity).
  split.
  - rewrite Ho. unfold F. rewrite batch_translate_fst. unfold batches. simpl fst.
    rewrite app_nil_l, !flat_map_concat_map, map_map. reflexivity.
  - rewrite He. unfold F. rewrite batch_fold_snd. reflexivity.
Qed.

Lemma range_count bs n start :
  0 < bs -> start < n ->
  (n - start + bs - 1) / bs = S ((n - (start + bs) + bs - 1) / bs).
Proof.
  intros Hbs Hlt.
  replace (n - start + bs - 1) with (1 * bs + (n - start - 1)) by lia.
  rewrite Nat.div_add_l by lia. f_equal.
  destruct (Nat.le_gt_cases (start + bs) n) as [Hle|Hgt].
  - replace (n - (start + bs) + bs - 1) with (n - start - 1) by lia. reflexivity.
  - rewrite !Nat.div_small by lia. reflexivity.
Qed.

Lemma range_from_seq bs n fuel : 0 < bs -> forall start, n - start <= fuel ->
  range_from fuel start n bs =
  map (fun j => start + j * bs) (seq 0 ((n - start + bs - 1) / bs)).
Proof.
  intro Hbs. induction fuel as [|f IH]; intros start Hf.
  - replace (n - start + bs - 1) with (bs - 1) by lia.
    rewrite Nat.div_small by lia. reflexivity.
  - simpl. destruct (start <? n) eqn:Hlt.
    + apply Nat.ltb_lt in Hlt. rewrite (range_count bs n start Hbs Hlt).
      rewrite IH by lia. cbn [seq map]. f_equal; [lia|].
      rewrite <- seq_shift, map_map. apply map_ext. intro j. simpl. lia.
    + apply Nat.ltb_ge in Hlt.
      replace (n - start + bs - 1) with (bs - 1) by lia.
      rewrite Nat.div_small by lia. reflexivity.
Qed.

Lemma py_range_seq n bs :
  0 < bs -> py_range n bs = map (fun j => j * bs) (seq 0 ((n + bs - 1) / bs)).
Proof.
  intro Hbs. unfold py_range. rewrite range_from_seq by (auto; lia).
  rewrite Nat.sub_0_r. reflexivity.
Qed.

Lemma concat_slices (texts : list pystr) bs c : forall start,
  length texts - start <= c * bs ->
  concat (map (fun j => slice (start + j * bs) (start + j * bs + bs) texts) (seq 0 c)) =
  skipn start texts.
Proof.
  induction c as [|c IH]; intros start Hc.
  - simpl. symmetry. apply length_zero_iff_nil. rewrite length_skipn. lia.
  - cbn [seq map concat]. rewrite <- seq_shift, map_map.
    rewrite (map_ext _ (fun j => slice (start + bs + j * bs) (start + bs + j * bs + bs) texts))
      by (intro j; f_equal; simpl; lia).
    rewrite IH by (simpl in Hc; lia).
    unfold slice. replace (start + 0 * bs + bs - (start + 0 * bs)) with bs by lia.
    rewrite Nat.mul_0_l, Nat.add_0_r.
    rewrite <- (firstn_skipn bs (skipn start texts)) at 2.
    rewrite skipn_skipn. f_equal. f_equal. lia.
Qed.

Lemma ceil_div_cover n bs : 0 < bs -> n <= (n + bs - 1) / bs * bs.
Proof.
  intro Hbs. pose proof (Nat.div_mod (n + bs - 1) bs) as Hd.
  pose proof (Nat.mod_upper_bound (n + bs - 1) bs) as Hm. lia.
Qed.

Lemma ceil_div_below n bs j : 0 < bs -> j < (n + bs - 1) / bs -> j * bs < n.
Proof.
  intros Hbs Hj. pose proof (Nat.Div0.mul_div_le (n + bs - 1) bs) as Hd.
  assert (S j * bs <= (n + bs - 1) / bs * bs) by (apply Nat.mul_le_mono_r; lia).
  simpl in *. lia.
Qed.

Lemma concat_batches texts bs : 0 < bs -> concat (batches texts bs) = texts.
Proof.
  intro Hbs. unfold batches. rewrite py_range_seq by exact Hbs. rewrite map_map.
  rewrite (concat_slices texts bs _ 0) by (pose proof (ceil_div_cover (length texts) bs Hbs); lia).
  reflexivity.
Qed.

Lemma filter_none {A} (l : list A) : filter (fun _ => false) l = [].
Proof. induction l; auto. Qed.

(** X5: the adapter splits its input into consecutive batches of at most
    [batch_size] non-empty strings, [ceil(len(texts) / batch_size)] of them
    (the total it prints), whose concatenation is the input. *)
Theorem batches_partition texts bs :
  0 < bs ->
  concat (batches texts bs) = texts /\
  length (batches texts bs) = (length texts + bs - 1) / bs /\
  Forall (fun b => b <> [] /\ length b <= bs) (batches texts bs).
Proof.
  intro Hbs. split; [apply concat_batches, Hbs|].
  unfold batches. rewrite py_range_seq by exact Hbs. rewrite map_map.
  split.
  - rewrite length_map, length_seq. reflexivity.
  - apply Forall_forall. intros b Hb. apply in_map_iff in Hb as [j [<- Hj]].
    apply in_seq in Hj. pose proof (ceil_div_below (length texts) bs j Hbs (proj2 Hj)).
    rewrite slice_length. split; [|lia].
    intro Hnil. apply (f_equal (@length pystr)) in Hnil. rewrite slice_length in Hnil. simpl in Hnil. lia.
Qed.

(** X6: the adapter calls the translator once per batch, in order, and
    sleeps once per batch whose call returned; its output is each batch's
    result (the batch itself when the call raised), concatenated. *)
Theorem batch_translate_trace tr texts bs out ev :
  batch_translate tr texts bs = Some (out, ev) ->
  out = flat_map (fun b => batch_output b (tr b)) (batches texts bs) /\
  translate_calls ev = batches texts bs /\
  sleep_count ev = length (filter (fun b => negb (raised (tr b))) (batches texts bs)).
Proof.
  intro H. destruct (batch_translate_batches tr texts bs out ev H) as [Ho He].
  split; [exact Ho|]. subst ev. split.
  - rewrite translate_calls_steps. reflexivity.
  - rewrite sleep_count_steps. reflexivity.
Qed.

(** X7: when every translator call raises, the adapter returns its input
    unchanged and never sleeps. *)
Theorem batch_translate_all_fail tr texts bs :
  0 < bs -> (forall b, tr b = TRaise) ->
  exists ev, batch_translate tr texts bs = Some (texts, ev) /\ sleep_count ev = 0.
Proof.
  intros Hbs Htr. unfold batch_translate.
  destruct (bs =? 0) eqn:H0; [apply Nat.eqb_eq in H0; lia|].
  set (F := fold_left (batch_step tr texts bs) (py_range (length texts) bs) ([], [])).
  exists (snd F). split.
  - assert (Hfst : fst F = texts).
    { unfold F. rewrite batch_translate_fst. simpl fst.
      rewrite (flat_map_ext _ (fun i => slice i (i + bs) texts))
        by (intro i; rewrite Htr; reflexivity).
      rewrite flat_map_concat_map. apply concat_batches, Hbs. }
    rewrite <- Hfst, <- surjective_pairing. reflexivity.
  - unfold F. rewrite batch_fold_snd. simpl snd. rewrite app_nil_l, sleep_count_steps.
    simpl. rewrite (filter_ext_in _ (fun _ => false)) by (intros b _; rewrite Htr; reflexivity).
    rewrite filter_none. reflexivity.
Qed.

(** Witness: three strings in batches of two. *)
Lemma batches_partition_witness :
  let texts := [s2l "a"; s2l "b"; s2l "c"] in
  0 < 2 /\
  (concat (batches texts 2) = texts /\
   length (batches texts 2) = (length texts + 2 - 1) / 2 /\
   Forall (fun b => b <> [] /\ length b <= 2) (batches texts 2)).
Proof.
  intro texts. split; [lia|]. apply (batches_partition texts 2). lia.
Defined.

(** Witness: three strings in batches of two; the second call raises. *)
Lemma batch_translate_trace_witness :
  let texts := [s2l "a"; s2l "b"; s2l "c"] in
  exists out ev, batch_translate tr_fail_single texts 2 = Some (out, ev) /\
  (out = flat_map (fun b => batch_output b (tr_fail_single b)) (batches texts 2) /\
   translate_calls ev = batches texts 2 /\
   sleep_count ev = length (filter (fun b => negb (raised (tr_fail_single b)))
                                   (batches texts 2))).
Proof.
  intro texts. do 2 eexists. split; [reflexivity|].
  apply (batch_translate_trace tr_fail_single texts 2). reflexivity.
Defined.

(** Witness: a translator that always raises, on three strings. *)
Lemma batch_translate_all_fail_witness :
  let texts := [s2l "a"; s2l "b"; s2l "c"] in
  (0 < 2 /\ (forall b, (fun _ : list pystr => TRaise) b = TRaise)) /\
  exists ev, batch_translate (fun _ => TRaise) texts 2 = Some (texts, ev) /\ sleep_count ev = 0.
Proof.
  intro texts. split; [split; [lia|reflexivity]|].
  apply (batch_translate_all_fail (fun _ => TRaise) texts 2); [lia|reflexivity].
Defined.

(** ** [os.path.splitext] *)

(** X8: [os.path.splitext] splits a path into a root and an extension that
    put back together give the path; the extension is empty or a '.'
    followed by no '/'. *)
Theorem splitext_parts p :
  fst (splitext p) ++ snd (splitext p) = p /\
  (snd (splitext p) = [] \/ exists e, snd (splitext p) = DOT :: e /\ ~ In SLASH e).
Proof.
  unfold splitext.
  destruct (rfind SLASH p <? rfind DOT p)%Z eqn:Hlt;
    [|simpl; rewrite app_nil_r; split; [reflexivity|left; reflexivity]].
  destruct (splitext_loop _ _ _ _);
    [|simpl; rewrite app_nil_r; split; [reflexivity|left; reflexivity]].
  simpl. split; [apply firstn_skipn|right].
  apply Z.ltb_lt in Hlt.
  destruct (existsb (N.eqb DOT) p) eqn:Hd.
  2:{ exfalso. unfold rfind in Hlt. rewrite (rfind_from_absent DOT p) in Hlt by exact Hd.
      pose proof (rfind_from_ge_best SLASH p 0%Z (-1)%Z ltac:(lia)). lia. }
  destruct (last_occurrence DOT p Hd) as [a [b [-> Hb]]].
  rewrite rfind_last in Hlt |- * by exact Hb. rewrite Nat2Z.id, skipn_length_app0.
  exists b. split; [reflexivity|]. intro Hs.
  apply in_split in Hs as [b1 [b2 ->]].
  assert (Hn : nth_error (a ++ DOT :: b1 ++ SLASH :: b2) (length a + S (length b1)) = Some SLASH).
  { rewrite nth_error_app2 by lia. replace (length a + S (length b1) - length a) with (S (length b1)) by lia.
    simpl. rewrite nth_error_app2 by lia. rewrite Nat.sub_diag. reflexivity. }
  pose proof (rfind_from_ge_pos SLASH _ 0%Z (-1)%Z _ ltac:(lia) Hn) as Hge.
  unfold rfind in Hlt. lia.
Qed.

(** ** The pipeline *)

Lemma translate_xml_to_urdu_out fs tr now input_file output_file :
  translate_xml_to_urdu fs tr now input_file output_file =
  let out := output_path input_file output_file now in
  let log0 := match output_file with None => [MWillSaveTo out] | Some _ => [] end in
  match fs_lookup fs input_file with
  | Some (EFile (FDoc root)) =>
      match collect_translatable_text root with
      | [] => mkRun fs ((log0 ++ [MCollecting]) ++ [MNoText]) [] (Returned out)
      | units =>
          match batch_translate tr (map unit_text units) DEFAULT_BATCH_SIZE with
          | Some (translated, ev) =>
              let log2 := (log0 ++ [MCollecting]) ++
                          [MFound (length units); MStarting; MUpdating] in
              let '(fs', ok) := save_tree fs out (write_translations root units translated) in
              if ok then mkRun fs' (log2 ++ [MCompleted out]) ev (Returned out)
              else mkRun fs' (log2 ++ [MError]) ev (Exited 1)
          | None => mkRun fs ((log0 ++ [MCollecting]) ++ [MError]) [] (Exited 1)
          end
      end
  | _ => mkRun fs (log0 ++ [MError]) [] (Exited 1)
  end.
Proof. destruct output_file; reflexivity. Qed.

Lemma batch_translate_some tr texts bs :
  0 < bs -> exists out ev, batch_translate tr texts bs = Some (out, ev).
Proof.
  intro Hbs. unfold batch_translate. destruct (bs =? 0) eqn:H0; [apply Nat.eqb_eq in H0; lia|].
  exists (fst (fold_left (batch_step tr texts bs) (py_range (length texts) bs) ([], []))),
         (snd (fold_left (batch_step tr texts bs) (py_range (length texts) bs) ([], []))).
  rewrite <- surjective_pairing. reflexivity.
Qed.

Lemma adds_dirs_refl fs : adds_dirs fs fs.
Proof. split; [reflexivity|split; [reflexivity|]]. intro q. left. reflexivity. Qed.

Lemma adds_dirs_trans fs1 fs2 fs3 : adds_dirs fs1 fs2 -> adds_dirs fs2 fs3 -> adds_dirs fs1 fs3.
Proof.
  intros [C1 [W1 E1]] [C2 [W2 E2]]. split; [congruence|split; [congruence|]].
  intro q. destruct (E1 q) as [A|[A B]]; destruct (E2 q) as [C|[C D]];
    [left; congruence|right; split; congruence|right; split; congruence|congruence].
Qed.

Lemma fs_put_entries fs p e q :
  fs_entries (fs_put fs p e) q = if list_eqb q (fs_canon fs p) then Some e else fs_entries fs q.
Proof. reflexivity. Qed.

Lemma fs_put_lookup fs p e : fs_lookup (fs_put fs p e) p = Some e.
Proof. unfold fs_lookup. rewrite fs_put_entries. simpl. rewrite list_eqb_refl. reflexivity. Qed.

Lemma mkdir_adds fs p : adds_dirs fs (fst (mkdir fs p)).
Proof.
  unfold mkdir, path_exists, fs_lookup.
  destruct (fs_entries fs (fs_canon fs p)) eqn:E; [apply adds_dirs_refl|].
  destruct (_ && _); [|apply adds_dirs_refl].
  split; [reflexivity|split; [reflexivity|]]. intro q. simpl fst. rewrite fs_put_entries.
  destruct (list_eqb q (fs_canon fs p)) eqn:Hq; [|left; reflexivity].
  apply list_eqb_spec in Hq. subst q. right. split; [exact E|reflexivity].
Qed.

Lemma makedirs_adds fuel : forall fs name, adds_dirs fs (fst (makedirs fuel fs name)).
Proof.
  induction fuel as [|f IH]; intros fs name; [apply adds_dirs_refl|]. cbn [makedirs].
  match goal with |- context [let '(_, _) := ?e in _] => destruct e as [head tail] end.
  destruct (nonempty head && nonempty tail && negb (path_exists fs head)); [|apply mkdir_adds].
  pose proof (IH fs head) as H1. destruct (makedirs f fs head) as [fs1 st]. simpl in H1.
  destruct st; [| |exact H1]; destruct (list_eqb tail (s2l ".")); try exact H1;
    (eapply adds_dirs_trans; [exact H1|apply mkdir_adds]).
Qed.

Lemma save_tree_dirs fs out :
  let d := dirname out in
  adds_dirs fs (fst (if nonempty d && negb (path_exists fs d)
                     then makedirs (S (length d)) fs d else (fs, OsOk))).
Proof.
  cbv zeta. destruct (_ && _); [apply makedirs_adds|apply adds_dirs_refl].
Qed.

(** Saving changes no entry but the output's, apart from adding directories
    where there was nothing. *)
Lemma save_tree_frame fs out root fs' ok :
  save_tree fs out root = (fs', ok) ->
  fs_canon fs' = fs_canon fs /\ fs_writable fs' = fs_writable fs /\
  forall q, fs_entries fs' q = fs_entries fs q \/ q = fs_canon fs out \/
            (fs_entries fs q = None /\ fs_entries fs' q = Some EDir).
Proof.
  unfold save_tree. pose proof (save_tree_dirs fs out) as Hm. cbv zeta in *.
  destruct (if nonempty (dirname out) && negb (path_exists fs (dirname out))
            then makedirs (S (length (dirname out))) fs (dirname out) else (fs, OsOk))
    as [fs1 st]. simpl in Hm. destruct Hm as [Hc [Hw He]].
  assert (Hfs1 : fs' = fs1 ->
    fs_canon fs' = fs_canon fs /\ fs_writable fs' = fs_writable fs /\
    forall q, fs_entries fs' q = fs_entries fs q \/ q = fs_canon fs out \/
              (fs_entries fs q = None /\ fs_entries fs' q = Some EDir)).
  { intros ->. split; [exact Hc|split; [exact Hw|]]. intro q.
    destruct (He q) as [A|A]; [left; exact A|right; right; exact A]. }
  assert (Hput : forall e, fs' = fs_put fs1 out e ->
    fs_canon fs' = fs_canon fs /\ fs_writable fs' = fs_writable fs /\
    forall q, fs_entries fs' q = fs_entries fs q \/ q = fs_canon fs out \/
              (fs_entries fs q = None /\ fs_entries fs' q = Some EDir)).
  { intros e ->. split; [exact Hc|split; [exact Hw|]]. intro q. rewrite fs_put_entries.
    destruct (list_eqb q (fs_canon fs1 out)) eqn:Hq.
    - apply list_eqb_spec in Hq. right. left. rewrite Hq, Hc. reflexivity.
    - destruct (He q) as [A|A]; [left; exact A|right; right; exact A]. }
  destruct st; intro H; try (injection H as <- _; apply Hfs1; reflexivity).
  destruct (open_wb_ok fs1 out); [|injection H as <- _; apply Hfs1; reflexivity].
  destruct (doc_ok root); injection H as <- _; eapply Hput; reflexivity.
Qed.

(** A successful save stores, under the output path, the tree re-read from
    the pretty-printed file. *)
Lemma save_tree_ok fs out root fs' :
  save_tree fs out root = (fs', true) ->
  doc_ok root = true /\ fs_lookup fs' out = Some (EFile (FDoc (reindent [] root))).
Proof.
  unfold save_tree. cbv zeta. destruct (if nonempty (dirname out) && negb (path_exists fs (dirname out))
            then makedirs (S (length (dirname out))) fs (dirname out) else (fs, OsOk))
    as [fs1 st].
  destruct st; try discriminate. destruct (open_wb_ok fs1 out); [|discriminate].
  destruct (doc_ok root); intro H; injection H as <-; [|discriminate].
  split; [reflexivity|apply fs_put_lookup].
Qed.

(** A save of a tree [minidom] rejects fails and leaves no document at the
    output path that was not there before. *)
Lemma save_tree_bad fs out root :
  doc_ok root = false ->
  snd (save_tree fs out root) = false /\
  forall n, fs_lookup (fst (save_tree fs out root)) out = Some (EFile (FDoc n)) ->
            fs_lookup fs out = Some (EFile (FDoc n)).
Proof.
  intro Hbad. unfold save_tree. pose proof (save_tree_dirs fs out) as Hm. cbv zeta in *.
  destruct (if nonempty (dirname out) && negb (path_exists fs (dirname out))
            then makedirs (S (length (dirname out))) fs (dirname out) else (fs, OsOk))
    as [fs1 st]. simpl in Hm. destruct Hm as [Hc [Hw He]].
  assert (Hfs1 : forall n, fs_lookup fs1 out = Some (EFile (FDoc n)) ->
                           fs_lookup fs out = Some (EFile (FDoc n))).
  { intros n. unfold fs_lookup. rewrite Hc.
    destruct (He (fs_canon fs out)) as [A|[_ A]]; rewrite A; [auto|discriminate]. }
  destruct st; try (split; [reflexivity|exact Hfs1]).
  destruct (open_wb_ok fs1 out); [|split; [reflexivity|exact Hfs1]].
  rewrite Hbad. split; [reflexivity|]. intro n. cbn [fst]. rewrite fs_put_lookup. discriminate.
Qed.

Lemma shape_with_tail n t : shape (with_tail n t) = shape n.
Proof. destruct n; reflexivity. Qed.

(** Re-indentation changes texts, tails and attribute values only. *)
Lemma reindent_shape n : forall ind, shape (reindent ind n) = shape n.
Proof.
  induction n as [tg a x t cs IH] using node_rect'. intro ind.
  assert (Ha : map fst (map (fun kv : pystr * pystr => (fst kv, attr_value_norm (snd kv))) a)
               = map fst a) by (rewrite map_map; reflexivity).
  destruct cs as [|c0 r0]; cbn [reindent shape]; rewrite Ha; [reflexivity|].
  f_equal. inversion IH as [|? ? Hc0 Hr0]; subst. cbn [map].
  rewrite shape_with_tail, Hc0. f_equal. clear Hc0 IH.
  induction Hr0 as [|c r Hc Hr IHr]; [reflexivity|]. cbn [map].
  rewrite shape_with_tail, Hc. f_equal. exact IHr.
Qed.

(** X9: [translate_xml_to_urdu] changes the file system at one place only,
    the file the output path names (under any of its spellings), apart from
    creating missing directories (lines 128-130) where nothing was; so the
    input file is left as it is unless it is the output file. *)
Theorem pipeline_fs_frame fs tr now input_file output_file :
  let out := output_path input_file output_file now in
  let r := translate_xml_to_urdu fs tr now input_file output_file in
  fs_canon (run_fs r) = fs_canon fs /\ fs_writable (run_fs r) = fs_writable fs /\
  (forall q, fs_entries (run_fs r) q = fs_entries fs q \/ q = fs_canon fs out \/
             (fs_entries fs q = None /\ fs_entries (run_fs r) q = Some EDir)) /\
  (fs_canon fs input_file <> fs_canon fs out ->
   fs_lookup (run_fs r) input_file = fs_lookup fs input_file).
Proof.
  intros out r. unfold r. rewrite translate_xml_to_urdu_out. fold out. cbv zeta.
  assert (Hsame : forall l t s,
    let r0 := mkRun fs l t s in
    fs_canon (run_fs r0) = fs_canon fs /\ fs_writable (run_fs r0) = fs_writable fs /\
    (forall q, fs_entries (run_fs r0) q = fs_entries fs q \/ q = fs_canon fs out \/
               (fs_entries fs q = None /\ fs_entries (run_fs r0) q = Some EDir)) /\
    (fs_canon fs input_file <> fs_canon fs out ->
     fs_lookup (run_fs r0) input_file = fs_lookup fs input_file)).
  { intros l t s. simpl. split; [reflexivity|split; [reflexivity|split; [|reflexivity]]].
    intro q. left. reflexivity. }
  destruct (fs_lookup fs input_file) as [[[root|]|]|] eqn:Hin; try apply Hsame.
  destruct (collect_translatable_text root) as [|u us]; [apply Hsame|].
  destruct (batch_translate _ _ _) as [[translated ev]|]; [|apply Hsame].
  destruct (save_tree fs out _) as [fs' ok] eqn:Hs.
  destruct (save_tree_frame _ _ _ _ _ Hs) as [Hc [Hw He]].
  assert (Hgoal : fs_canon fs' = fs_canon fs /\ fs_writable fs' = fs_writable fs /\
    (forall q, fs_entries fs' q = fs_entries fs q \/ q = fs_canon fs out \/
               (fs_entries fs q = None /\ fs_entries fs' q = Some EDir)) /\
    (fs_canon fs input_file <> fs_canon fs out ->
     fs_lookup fs' input_file = fs_lookup fs input_file)).
  { split; [exact Hc|split; [exact Hw|split; [exact He|]]].
    intro Hne. unfold fs_lookup in *. rewrite Hc.
    destruct (He (fs_canon fs input_file)) as [A|[A|[A _]]];
      [exact A|contradiction|congruence]. }
  rewrite Hin in Hgoal. destruct ok; exact Hgoal.
Qed.

(** X10: when the translated tree cannot be saved because [minidom] rejects
    what [tree.write] produced (a character XML does not allow, such as one
    a translation returned), [translate_xml_to_urdu] prints the error and
    exits with status 1 after the adapter's run, and no document readable
    as a tree is left at the output path that was not there before. *)
Theorem pipeline_save_failure fs tr now input_file output_file root translated ev :
  fs_lookup fs input_file = Some (EFile (FDoc root)) ->
  collect_translatable_text root <> [] ->
  batch_translate tr (map unit_text (collect_translatable_text root)) DEFAULT_BATCH_SIZE
    = Some (translated, ev) ->
  doc_ok (write_translations root (collect_translatable_text root) translated) = false ->
  let out := output_path input_file output_file now in
  let r := translate_xml_to_urdu fs tr now input_file output_file in
  run_status r = Exited 1 /\ run_trace r = ev /\ (exists pre, run_log r = pre ++ [MError]) /\
  (forall n, fs_lookup (run_fs r) out = Some (EFile (FDoc n)) ->
             fs_lookup fs out = Some (EFile (FDoc n))).
Proof.
  intros Hin Hne Hbt Hbad out r. unfold r. rewrite translate_xml_to_urdu_out. fold out. cbv zeta.
  rewrite Hin. destruct (save_tree_bad fs out _ Hbad) as [Hok Hdoc].
  destruct (collect_translatable_text root) as [|u us]; [contradiction|]. rewrite Hbt.
  destruct (save_tree fs out _) as [fs' ok]. simpl in Hok, Hdoc. subst ok. simpl.
  split; [reflexivity|split; [reflexivity|split; [eexists; reflexivity|exact Hdoc]]].
Qed.

(** X11: when the input parses, has translatable text, and the run returns,
    its trace is that of [batch_translate] on the queued strings (batches of
    100), and the output path holds the tree the write loop produced, as
    re-read from the pretty-printed file: the input's element structure and
    element count, texts, tails and attribute values re-indented. *)
Theorem pipeline_success fs tr now input_file output_file root :
  fs_lookup fs input_file = Some (EFile (FDoc root)) -> collect_translatable_text root <> [] ->
  run_status (translate_xml_to_urdu fs tr now input_file output_file) =
    Returned (output_path input_file output_file now) ->
  let units := collect_translatable_text root in
  let out := output_path input_file output_file now in
  let r := translate_xml_to_urdu fs tr now input_file output_file in
  exists translated,
    batch_translate tr (map unit_text units) DEFAULT_BATCH_SIZE = Some (translated, run_trace r) /\
    doc_ok (write_translations root units translated) = true /\
    fs_lookup (run_fs r) out =
      Some (EFile (FDoc (reindent [] (write_translations root units translated)))) /\
    shape (reindent [] (write_translations root units translated)) = shape root /\
    node_count (reindent [] (write_translations root units translated)) = node_count root /\
    (exists pre, run_log r = pre ++ [MCompleted out]).
Proof.
  intros Hin Hne Hret units out r. unfold r in *. rewrite translate_xml_to_urdu_out in *.
  fold out in Hret |- *. cbv zeta in *. rewrite Hin in *. fold units in Hret |- *.
  destruct (batch_translate_some tr (map unit_text units) DEFAULT_BATCH_SIZE
              ltac:(unfold DEFAULT_BATCH_SIZE; lia)) as [translated [ev Hbt]].
  assert (Hsh : shape (reindent [] (write_translations root units translated)) = shape root).
  { rewrite reindent_shape. unfold write_translations. apply write_fold_shape; [|reflexivity].
    intros t p s v Hc. exact (in_combine_l _ _ _ _ Hc). }
  destruct units as [|u us] eqn:Hu; [contradiction|].
  rewrite Hbt in Hret |- *. exists translated.
  destruct (save_tree fs out _) as [fs' ok] eqn:Hs.
  destruct ok; [|discriminate]. destruct (save_tree_ok _ _ _ _ Hs) as [Hdoc Hlook].
  simpl. split; [reflexivity|]. split; [exact Hdoc|]. split; [exact Hlook|].
  split; [exact Hsh|]. split; [apply node_count_shape, Hsh|]. eexists. reflexivity.
Qed.

(** Witness: translating [strings.xml] into [out.xml] leaves [strings.xml]. *)
Lemma pipeline_fs_frame_witness :
  let r := translate_xml_to_urdu sample_fs (fun b => TList b) sample_now (s2l "strings.xml")
             (Some (s2l "out.xml")) in
  fs_canon sample_fs (s2l "strings.xml") <> fs_canon sample_fs (s2l "out.xml") /\
  fs_lookup (run_fs r) (s2l "strings.xml") = fs_lookup sample_fs (s2l "strings.xml") /\
  fs_lookup (run_fs r) (s2l "strings.xml") = Some (EFile (FDoc sample_root)).
Proof.
  intro r.
  assert (Hne : fs_canon sample_fs (s2l "strings.xml") <> fs_canon sample_fs (s2l "out.xml"))
    by (vm_compute; discriminate).
  destruct (pipeline_fs_frame sample_fs (fun b => TList b) sample_now (s2l "strings.xml")
              (Some (s2l "out.xml"))) as [_ [_ [_ Hin]]].
  split; [exact Hne|split; [exact (Hin Hne)|]].
  unfold r. rewrite (Hin Hne). vm_compute. reflexivity.
Defined.

(** Witness: a translator that returns the control character U+0001 for
    every string. *)
Lemma pipeline_save_failure_witness :
  let tr := fun b : list pystr => TList (map (fun _ => [1%N]) b) in
  (fs_lookup sample_fs (s2l "strings.xml") = Some (EFile (FDoc sample_root)) /\
   collect_translatable_text sample_root <> [] /\
   batch_translate tr (map unit_text (collect_translatable_text sample_root)) DEFAULT_BATCH_SIZE
     = Some ([[1%N]], [ETranslate [s2l "Hello"]; EPrintOk 1 1; ESleep 1]) /\
   doc_ok (write_translations sample_root (collect_translatable_text sample_root) [[1%N]])
     = false) /\
  (let r := translate_xml_to_urdu sample_fs tr sample_now (s2l "strings.xml")
              (Some (s2l "out.xml")) in
   run_status r = Exited 1 /\ run_trace r = [ETranslate [s2l "Hello"]; EPrintOk 1 1; ESleep 1] /\
   (exists pre, run_log r = pre ++ [MError]) /\
   (forall n, fs_lookup (run_fs r) (output_path (s2l "strings.xml") (Some (s2l "out.xml")) sample_now)
                = Some (EFile (FDoc n)) ->
              fs_lookup sample_fs (output_path (s2l "strings.xml") (Some (s2l "out.xml")) sample_now)
                = Some (EFile (FDoc n)))).
Proof.
  intro tr.
  split; [split; [vm_compute; reflexivity|split; [vm_compute; discriminate|
                                                   split; vm_compute; reflexivity]]|].
  apply (pipeline_save_failure sample_fs tr sample_now (s2l "strings.xml") (Some (s2l "out.xml"))
           sample_root [[1%N]] [ETranslate [s2l "Hello"]; EPrintOk 1 1; ESleep 1]);
    [vm_compute; reflexivity|vm_compute; discriminate|vm_compute; reflexivity|
     vm_compute; reflexivity].
Defined.

(** Witness: translating the one-string document to the default output path. *)
Lemma pipeline_success_witness :
  (fs_lookup sample_fs (s2l "strings.xml") = Some (EFile (FDoc sample_root)) /\
   collect_translatable_text sample_root <> [] /\
   run_status (translate_xml_to_urdu sample_fs (fun b => TList b) sample_now
                 (s2l "strings.xml") None) =
     Returned (output_path (s2l "strings.xml") None sample_now)) /\
  (let units := collect_translatable_text sample_root in
   let out := output_path (s2l "strings.xml") None sample_now in
   let r := translate_xml_to_urdu sample_fs (fun b => TList b) sample_now
              (s2l "strings.xml") None in
   exists translated,
     batch_translate (fun b => TList b) (map unit_text units) DEFAULT_BATCH_SIZE
       = Some (translated, run_trace r) /\
     doc_ok (write_translations sample_root units translated) = true /\
     fs_lookup (run_fs r) out =
       Some (EFile (FDoc (reindent [] (write_translations sample_root units translated)))) /\
     shape (reindent [] (write_translations sample_root units translated)) = shape sample_root /\
     node_count (reindent [] (write_translations sample_root units translated))
       = node_count sample_root /\
     (exists pre, run_log r = pre ++ [MCompleted out])).
Proof.
  split; [split; [vm_compute; reflexivity|split; [vm_compute; discriminate|vm_compute; reflexivity]]|].
  apply (pipeline_success sample_fs (fun b => TList b) sample_now (s2l "strings.xml") None
           sample_root); [vm_compute; reflexivity|vm_compute; discriminate|vm_compute; reflexivity].
Defined.

(** ** The write loop's [zip] *)

Lemma combine_firstn_l {A B} (l1 : list A) : forall (l2 : list B),
  combine l1 l2 = combine (firstn (length l2) l1) l2.
Proof.
  induction l1 as [|x r IH]; intros [|y l2]; simpl; try reflexivity.
  f_equal. apply IH.
Qed.

Lemma combine_firstn_r {A B} (l1 : list A) : forall (l2 : list B),
  combine l1 l2 = combine l1 (firstn (length l1) l2).
Proof.
  induction l1 as [|x r IH]; intros [|y l2]; simpl; try reflexivity.
  f_equal. apply IH.
Qed.

(** X12: the write loop pairs units with translations by [zip]: units past
    the last translation are left untranslated, and translations past the
    last unit are ignored. *)
Theorem write_translations_zip root units trs :
  write_translations root units trs = write_translations root (firstn (length trs) units) trs /\
  write_translations root units trs = write_translations root units (firstn (length units) trs).
Proof.
  unfold write_translations. split; f_equal; [apply combine_firstn_l|apply combine_firstn_r].
Qed.

(** ** [main] *)

Lemma length_lower s : length (lower s) = length s.
Proof. apply length_map. Qed.

Lemma lower_app a b : lower (a ++ b) = lower a ++ lower b.
Proof. apply map_app. Qed.

Lemma endswith_lower_xml s :
  endswith (lower s) (s2l ".xml") = true <->
  exists pre suf, s = pre ++ suf /\ lower suf = s2l ".xml".
Proof.
  unfold endswith. rewrite length_lower. split.
  - intro H. apply andb_true_iff in H as [Hlen Heq].
    apply list_eqb_spec in Heq. unfold lower in Heq. rewrite skipn_map in Heq.
    exists (firstn (length s - 4) s), (skipn (length s - 4) s).
    split; [symmetry; apply firstn_skipn|exact Heq].
  - intros [pre [suf [-> Hsuf]]].
    assert (Hl : length suf = 4) by (rewrite <- (length_lower suf), Hsuf; reflexivity).
    rewrite length_app, Hl. apply andb_true_iff. split; [apply Nat.leb_le; simpl; lia|].
    apply list_eqb_spec. rewrite lower_app.
    replace (length pre + 4 - length (s2l ".xml")) with (length (lower pre))
      by (rewrite length_lower; simpl; lia).
    rewrite skipn_length_app0. exact Hsuf.
Qed.

(** X13: [main] runs the pipeline exactly when an input path is given, it
    exists, and it ends in '.xml' in any letter case; it then passes
    [sys.argv[1]] as the input and [sys.argv[2]], when given, as the output. *)
Theorem main_runs_iff argv exists_ i o :
  main argv exists_ = MainRun i o <->
  2 <= length argv /\ exists_ (nth 1 argv []) = true /\
  (exists pre suf, nth 1 argv [] = pre ++ suf /\ lower suf = s2l ".xml") /\
  i = nth 1 argv [] /\ o = (if 2 <? length argv then Some (nth 2 argv []) else None).
Proof.
  rewrite <- endswith_lower_xml. unfold main. split.
  - destruct (length argv <? 2) eqn:H1; [discriminate|].
    destruct (exists_ (nth 1 argv [])) eqn:H2; [|discriminate].
    destruct (endswith _ _) eqn:H3; [|discriminate].
    intro H. injection H as <- <-. apply Nat.ltb_ge in H1. auto.
  - intros [H1 [H2 [H3 [-> ->]]]].
    replace (length argv <? 2) with false by (symmetry; apply Nat.ltb_ge; exact H1).
    rewrite H2, H3. reflexivity.
Qed.

(** X14: [main] ignores command-line arguments after the output path. *)
Theorem main_extra_args argv extra exists_ :
  3 <= length argv -> main (argv ++ extra) exists_ = main argv exists_.
Proof.
  intro H. unfold main. rewrite length_app.
  replace (length argv + length extra <? 2) with false by (symmetry; apply Nat.ltb_ge; lia).
  replace (length argv <? 2) with false by (symmetry; apply Nat.ltb_ge; lia).
  replace (2 <? length argv + length extra) with true by (symmetry; apply Nat.ltb_lt; lia).
  replace (2 <? length argv) with true by (symmetry; apply Nat.ltb_lt; lia).
  rewrite !app_nth1 by lia. reflexivity.
Qed.

(** Witness: [script.py in.XML out.xml] with [in.XML] present. *)
Lemma main_runs_iff_witness :
  let argv := [s2l "script.py"; s2l "in.XML"; s2l "out.xml"] in
  main argv (fun _ => true) = MainRun (s2l "in.XML") (Some (s2l "out.xml")) /\
  (2 <= length argv /\ (fun _ : pystr => true) (nth 1 argv []) = true /\
   (exists pre suf, nth 1 argv [] = pre ++ suf /\ lower suf = s2l ".xml") /\
   s2l "in.XML" = nth 1 argv [] /\
   Some (s2l "out.xml") = (if 2 <? length argv then Some (nth 2 argv []) else None)).
Proof.
  intro argv. split; [vm_compute; reflexivity|].
  apply (main_runs_iff argv (fun _ => true)). vm_compute. reflexivity.
Defined.

(** Witness: a fourth argument after the output path. *)
Lemma main_extra_args_witness :
  3 <= length [s2l "script.py"; s2l "in.xml"; s2l "out.xml"] /\
  main ([s2l "script.py"; s2l "in.xml"; s2l "out.xml"] ++ [s2l "--verbose"]) (fun _ => true) =
  main [s2l "script.py"; s2l "in.xml"; s2l "out.xml"] (fun _ => true).
Proof. split; [simpl; lia|]. apply main_extra_args. simpl. lia. Defined.

(** ** The adapter's progress messages *)

Lemma printed_batches_app a b :
  printed_batches (a ++ b) = printed_batches a ++ printed_batches b.
Proof. induction a as [|[] a IH]; simpl; rewrite ?IH; reflexivity. Qed.

Lemma printed_totals_app a b :
  printed_totals (a ++ b) = printed_totals a ++ printed_totals b.
Proof. induction a as [|[] a IH]; simpl; rewrite ?IH; reflexivity. Qed.

Lemma printed_steps tr texts bs c : 0 < bs -> forall s,
  printed_batches (flat_map (step_events tr texts bs) (map (fun j => j * bs) (seq s c))) =
  seq (S s) c /\
  Forall (fun t => t = (length texts + bs - 1) / bs)
    (printed_totals (flat_map (step_events tr texts bs) (map (fun j => j * bs) (seq s c)))).
Proof.
  intro Hbs. induction c as [|c IH]; intro s; [split; [reflexivity|constructor]|].
  cbn [seq map flat_map]. rewrite printed_batches_app, printed_totals_app.
  destruct (IH (S s)) as [IH1 IH2]. rewrite IH1.
  unfold step_events. rewrite Nat.div_mul by lia.
  destruct (raised _); simpl; (split; [rewrite Nat.add_1_r; reflexivity|]).
  - exact IH2.
  - constructor; [reflexivity|exact IH2].
Qed.

(** X15: the adapter numbers its batches 1, 2, ... in its messages, one
    message per batch whether the call failed or not, and every
    "Translated batch i of n" line gives the number of batches as n. *)
Theorem batch_messages tr texts bs out ev :
  batch_translate tr texts bs = Some (out, ev) ->
  printed_batches ev = seq 1 (length (batches texts bs)) /\
  Forall (fun t => t = length (batches texts bs)) (printed_totals ev).
Proof.
  intro H. assert (Hbs : 0 < bs).
  { unfold batch_translate in H. destruct (bs =? 0) eqn:E; [discriminate|].
    apply Nat.eqb_neq in E. lia. }
  destruct (batch_translate_batches tr texts bs out ev H) as [_ Hev]. rewrite Hev.
  unfold batches. rewrite py_range_seq by exact Hbs.
  rewrite length_map, length_map, length_seq.
  apply (printed_steps tr texts bs _ Hbs 0).
Qed.

(** Witness: three strings in batches of two; the second call raises. *)
Lemma batch_messages_witness :
  let texts := [s2l "a"; s2l "b"; s2l "c"] in
  exists out ev, batch_translate tr_fail_single texts 2 = Some (out, ev) /\
  (printed_batches ev = seq 1 (length (batches texts 2)) /\
   Forall (fun t => t = length (batches texts 2)) (printed_totals ev)).
Proof.
  intro texts. do 2 eexists. split; [reflexivity|].
  eapply (batch_messages tr_fail_single texts 2). reflexivity.
Defined.
